(** * CargoBay GUI: grouping of containers by name prefix

    A shallow embedding of [containerGroupCandidates] and
    [groupContainersByNamePrefix] from the React front end (App.tsx), and the
    properties of the name-based clustering engine.

    JavaScript strings are modelled by [string]: a character stands for one
    code unit, here below 256.  [Map] objects whose iteration order is never
    observed are [gmap]s; the [Set] of candidates and the [Map] of groups are
    iterated, so they are lists in insertion order.  [localeCompare] belongs
    to the host and is a parameter. *)

From Stdlib Require Import String Ascii List ZArith Lia Bool Sorted Permutation
  OrderedTypeEx.
From stdpp Require Import base decidable option list gmap strings.

Import ListNotations.
Local Open Scope string_scope.
Local Open Scope list_scope.

(** ** Strings *)

(** [!s] for a string: the empty string is the only falsy one. *)
Definition is_empty (s : string) : bool :=
  match s with
  | EmptyString => true
  | String _ _ => false
  end.

(** WhiteSpace and LineTerminator code units removed by [String.prototype.trim]:
    TAB, LF, VT, FF, CR, SP and NBSP. *)
Definition is_white_space (c : ascii) : bool :=
  let n := nat_of_ascii c in
  (Nat.leb 9 n && Nat.leb n 13) || Nat.eqb n 32 || Nat.eqb n 160.

Fixpoint trimStart (s : string) : string :=
  match s with
  | EmptyString => EmptyString
  | String c r => if is_white_space c then trimStart r else s
  end.

Fixpoint trimEnd (s : string) : string :=
  match s with
  | EmptyString => EmptyString
  | String c r =>
      let r' := trimEnd r in
      if is_white_space c && is_empty r' then EmptyString else String c r'
  end.

(** [s.trim()] *)
Definition trim (s : string) : string := trimEnd (trimStart s).

(** [ch === "-" || ch === "_"] *)
Definition is_sep (c : ascii) : bool :=
  Ascii.eqb c "-" || Ascii.eqb c "_".

(** The class [\d]. *)
Definition is_digit (c : ascii) : bool :=
  let n := nat_of_ascii c in Nat.leb 48 n && Nat.leb n 57.

Fixpoint all_digits (s : string) : bool :=
  match s with
  | EmptyString => true
  | String c r => is_digit c && all_digits r
  end.

(** Does [\d+$] match the whole of [s]? *)
Definition digits_to_end (s : string) : bool :=
  negb (is_empty s) && all_digits s.

(** [s.replace(/[-_]\d+$/, "")]: the scan tries each start position from the
    left; the first position where a separator is followed by digits up to the
    end of the input is the match, and it is replaced by the empty string. *)
Fixpoint replace_sep_digits_end (s : string) : string :=
  match s with
  | EmptyString => EmptyString
  | String c r =>
      if is_sep c && digits_to_end r then EmptyString
      else String c (replace_sep_digits_end r)
  end.

(** ** Insertion-ordered [Set<string>] *)

(** [out.add(x)]: a value already present keeps its place. *)
Definition Set_add (x : string) (out : list string) : list string :=
  if bool_decide (x ∈ out) then out else out ++ [x].

(** [new Set(xs)] followed by [Array.from]. *)
Definition Set_from (xs : list string) : list string :=
  foldl (fun out x => Set_add x out) [] xs.

(** ** Candidate generator *)

(** One turn of the loop [for (let i = 0; i < trimmed.length; i++)]. *)
Definition candidate_loop_body (trimmed : string) (out : list string) (i : nat)
  : list string :=
  match String.get i trimmed with
  | Some ch =>
      if is_sep ch then
        let prefix := String.substring 0 i trimmed in
        if is_empty prefix then out else Set_add prefix out
      else out
  | None => out
  end.

Definition containerGroupCandidates (name : string) : list string :=
  let trimmed := trim name in
  if is_empty trimmed then []
  else
    let out := Set_add trimmed [] in
    let base := replace_sep_digits_end trimmed in
    let out := if is_empty base then out else Set_add base out in
    foldl (candidate_loop_body trimmed) out (seq 0 (String.length trimmed)).

(** ** Records *)

Record ContainerInfo := {
  id : string;
  name : string;
  image : string;
  state : string;
  status : string;
  ports : string
}.

Record ContainerGroup := {
  key : string;
  containers : list ContainerInfo;
  runningCount : nat;
  stoppedCount : nat
}.

(** [c.name || c.id] *)
Definition name_or_id (c : ContainerInfo) : string :=
  if is_empty (name c) then id c else name c.

(** [c.state === "running"] *)
Definition is_running (c : ContainerInfo) : bool :=
  String.eqb (state c) "running".

(** ** [Array.prototype.sort]

    The sort is stable; with a consistent comparator its result is the one
    stable ordering of the input, which insertion from the right computes. *)
Fixpoint sort_insert {A} (cmp : A -> A -> Z) (x : A) (l : list A) : list A :=
  match l with
  | [] => [x]
  | y :: l' => if (cmp x y <=? 0)%Z then x :: l else y :: sort_insert cmp x l'
  end.

Definition Array_sort {A} (cmp : A -> A -> Z) (l : list A) : list A :=
  foldr (sort_insert cmp) [] l.

(** ** First pass: the frequency index *)

(** [candidateCounts.set(cand, (candidateCounts.get(cand) || 0) + 1)] *)
Definition count_candidate (candidateCounts : gmap string nat) (cand : string)
  : gmap string nat :=
  <[cand := default 0 (candidateCounts !! cand) + 1]> candidateCounts.

Definition first_pass_body
    (st : gmap string nat * gmap string (list string)) (c : ContainerInfo)
  : gmap string nat * gmap string (list string) :=
  let '(candidateCounts, candidatesById) := st in
  let name := trim (name_or_id c) in
  let uniqueCandidates := Set_from (containerGroupCandidates name) in
  let candidatesById := <[id c := uniqueCandidates]> candidatesById in
  (foldl count_candidate candidateCounts uniqueCandidates, candidatesById).

Definition first_pass (cs : list ContainerInfo)
  : gmap string nat * gmap string (list string) :=
  foldl first_pass_body (∅, ∅) cs.

(** ** Second pass: key selection and partition *)

Record Best := { bestKey : string; bestCount : nat; bestLen : nat }.

(** Body of [for (const cand of candidates)]. *)
Definition select_body (candidateCounts : gmap string nat) (b : Best)
    (cand : string) : Best :=
  let count := default 0 (candidateCounts !! cand) in
  if (count <? 2)%nat then b
  else if (bestCount b <? count)%nat
          || ((count =? bestCount b)%nat
              && (bestLen b <? String.length cand)%nat)
       then {| bestKey := cand; bestCount := count;
               bestLen := String.length cand |}
       else b.

(** [candidatesById.get(c.id) || containerGroupCandidates(name)]: an array,
    even an empty one, is truthy. *)
Definition candidates_of (candidatesById : gmap string (list string))
    (c : ContainerInfo) : list string :=
  match candidatesById !! id c with
  | Some candidates => candidates
  | None => containerGroupCandidates (trim (name_or_id c))
  end.

Definition select_key (candidateCounts : gmap string nat)
    (candidatesById : gmap string (list string)) (c : ContainerInfo) : string :=
  let name := trim (name_or_id c) in
  bestKey (foldl (select_body candidateCounts)
             {| bestKey := name; bestCount := 1; bestLen := 0 |}
             (candidates_of candidatesById c)).

(** [groups.get(bestKey)], then [existing.push(c)] or
    [groups.set(bestKey, [c])]; a new key goes last in iteration order. *)
Fixpoint groups_push (groups : list (string * list ContainerInfo))
    (bestKey : string) (c : ContainerInfo) : list (string * list ContainerInfo) :=
  match groups with
  | [] => [(bestKey, [c])]
  | (k, items) :: rest =>
      if String.eqb k bestKey then (k, items ++ [c]) :: rest
      else (k, items) :: groups_push rest bestKey c
  end.

Definition second_pass (candidateCounts : gmap string nat)
    (candidatesById : gmap string (list string)) (cs : list ContainerInfo)
  : list (string * list ContainerInfo) :=
  foldl (fun groups c =>
           groups_push groups (select_key candidateCounts candidatesById c) c)
        [] cs.

(** ** Third pass: aggregates and order *)

Section Grouping.

(** [String.prototype.localeCompare] of the host: negative, zero or
    positive. *)
Variable localeCompare : string -> string -> Z.

Definition member_compare (a b : ContainerInfo) : Z :=
  let ar := is_running a in
  let br := is_running b in
  if negb (Bool.eqb ar br) then (if ar then -1 else 1)%Z
  else
    let an := localeCompare (name_or_id a) (name_or_id b) in
    if negb (an =? 0)%Z then an
    else localeCompare (id a) (id b).

Definition make_group (entry : string * list ContainerInfo) : ContainerGroup :=
  let '(key, items) := entry in
  let runningCount := length (List.filter is_running items) in
  let stoppedCount := length items - runningCount in
  {| key := key;
     containers := Array_sort member_compare items;
     runningCount := runningCount;
     stoppedCount := stoppedCount |}.

Definition group_compare (a b : ContainerGroup) : Z :=
  let ar := (0 <? runningCount a)%nat in
  let br := (0 <? runningCount b)%nat in
  if negb (Bool.eqb ar br) then (if ar then -1 else 1)%Z
  else if negb (length (containers a) =? length (containers b))%nat
       then (Z.of_nat (length (containers b))
             - Z.of_nat (length (containers a)))%Z
       else localeCompare (key a) (key b).

Definition groupContainersByNamePrefix (cs : list ContainerInfo)
  : list ContainerGroup :=
  let '(candidateCounts, candidatesById) := first_pass cs in
  let groups := second_pass candidateCounts candidatesById cs in
  Array_sort group_compare (map make_group groups).

End Grouping.

(** Comparison by code units, an instance of [localeCompare] on which the
    scenarios are run. *)
Definition codeUnitCompare (a b : string) : Z :=
  match String.compare a b with
  | Lt => (-1)%Z
  | Eq => 0%Z
  | Gt => 1%Z
  end.

(** ** The candidate order as the specification words it *)

(** Each string once, at its first position. *)
Fixpoint dedup_keep_first (xs : list string) : list string :=
  match xs with
  | [] => []
  | x :: r =>
      x :: filter (fun y => y <> x) (dedup_keep_first r)
  end.

(** The part of [s] from index [i] to its end. *)
Definition suffix_from (i : nat) (s : string) : string :=
  String.substring i (String.length s - i) s.

(** [s] is a separator followed by one or more digits. *)
Definition is_index_suffix (s : string) : bool :=
  match s with
  | EmptyString => false
  | String c ds => is_sep c && negb (is_empty ds) && all_digits ds
  end.

(** The remainders left by removing a trailing "-<digits>" or "_<digits>". *)
Definition spec_remainders (t : string) : list string :=
  omap (fun i => if is_index_suffix (suffix_from i t)
                 then Some (String.substring 0 i t) else None)
       (seq 0 (String.length t)).

(** Item 2: the remainder, only if it is not empty. *)
Definition spec_stripped (t : string) : list string :=
  List.filter (fun r => negb (is_empty r)) (spec_remainders t).

(** Item 3: for each separator, left to right, the prefix before it, only if
    it is not empty. *)
Definition spec_sep_prefixes (t : string) : list string :=
  omap (fun i => match String.get i t with
                 | Some ch =>
                     if is_sep ch && negb (is_empty (String.substring 0 i t))
                     then Some (String.substring 0 i t) else None
                 | None => None
                 end)
       (seq 0 (String.length t)).

Definition spec_candidates (t : string) : list string :=
  dedup_keep_first (t :: spec_stripped t ++ spec_sep_prefixes t).

(** ** The frequency index and the selection rule as specified *)

(** The candidate set of a record. *)
Definition candidates_for (c : ContainerInfo) : list string :=
  containerGroupCandidates (trim (name_or_id c)).

(** In how many records of the snapshot does [s] occur as a candidate? *)
Definition frequency (cs : list ContainerInfo) (s : string) : nat :=
  length (filter (fun r => s ∈ candidates_for r) cs).

(** [key] wins among [cands]: it is eligible; an eligible candidate generated
    before it has a lower count, or the same count and a shorter string; an
    eligible candidate generated after it has no higher count and, at the same
    count, no longer string. *)
Definition wins (freq : string -> nat) (cands : list string) (key : string)
  : Prop :=
  exists l1 l2,
    cands = l1 ++ key :: l2
    /\ 2 <= freq key
    /\ (forall s, s ∈ l1 -> 2 <= freq s ->
          freq s < freq key
          \/ (freq s = freq key /\ String.length s < String.length key))
    /\ (forall s, s ∈ l2 -> 2 <= freq s ->
          freq s < freq key
          \/ (freq s = freq key /\ String.length s <= String.length key)).

(** ** The orders as specified *)

(** What the ECMAScript standard asks of a comparator: the sign flips when
    the arguments are swapped, and "not after" is transitive. *)
Record Consistent (lc : string -> string -> Z) : Prop := {
  lc_antisym : forall a b, Z.sgn (lc a b) = (- Z.sgn (lc b a))%Z;
  lc_trans : forall a b c, (lc a b <= 0 -> lc b c <= 0 -> lc a c <= 0)%Z
}.

(** [a] may stand before [b] in a member list: running before stopped; in
    the same bucket by name-or-id, then by id. *)
Definition member_before (lc : string -> string -> Z) (a b : ContainerInfo)
  : Prop :=
  (is_running b = true -> is_running a = true)
  /\ (is_running a = is_running b ->
      (lc (name_or_id a) (name_or_id b) <= 0)%Z
      /\ (lc (name_or_id a) (name_or_id b) = 0%Z ->
          (lc (id a) (id b) <= 0)%Z)).

(** The group has at least one running member. *)
Definition has_running (g : ContainerGroup) : bool :=
  existsb is_running (containers g).

(** [g1] may stand before [g2] in the output: groups with a running member
    first; then by descending size; then by key. *)
Definition group_before (lc : string -> string -> Z) (g1 g2 : ContainerGroup)
  : Prop :=
  (has_running g2 = true -> has_running g1 = true)
  /\ (has_running g1 = has_running g2 ->
      length (containers g2) <= length (containers g1)
      /\ (length (containers g1) = length (containers g2) ->
          (lc (key g1) (key g2) <= 0)%Z)).

(** The members recorded under [k] in the [groups] map; none if [k] is not a
    key. *)
Fixpoint groups_get (groups : list (string * list ContainerInfo)) (k : string)
  : list ContainerInfo :=
  match groups with
  | [] => []
  | (k', items) :: rest => if String.eqb k' k then items else groups_get rest k
  end.

(** ** Scenarios *)

(** A record with the given id, name and state. *)
Definition record (i n st : string) : ContainerInfo :=
  {| id := i; name := n; image := ""; state := st; status := ""; ports := "" |}.

Definition web_1 := record "c1" "web-1" "running".
Definition web_2 := record "c2" "web-2" "running".
Definition api_1 := record "c3" "api-1" "running".
Definition scenario_A := [web_1; web_2; api_1].

Definition db := record "d1" "db" "running".
Definition db_replica_1 := record "d2" "db-replica-1" "exited".
Definition db_replica_2 := record "d3" "db-replica-2" "running".
Definition scenario_B := [db; db_replica_1; db_replica_2].

(** ** A collation

    [localeCompare] without arguments compares by the collation of the
    host, not by code units.  [collationCompare] is a comparator of that
    kind on strings of code units: two strings are first compared with the
    letters A to Z read as a to z; strings that differ in case only are put
    with the lower-case letter first.  On names that first differ at a letter
    of the basic Latin alphabet this is the order of the default
    collation. *)
Definition toLower (c : ascii) : ascii :=
  let n := nat_of_ascii c in
  if Nat.leb 65 n && Nat.leb n 90 then ascii_of_nat (n + 32) else c.

Fixpoint toLowerCase (s : string) : string :=
  match s with
  | EmptyString => EmptyString
  | String c r => String (toLower c) (toLowerCase r)
  end.

Definition collationCompare (a b : string) : Z :=
  match String.compare (toLowerCase a) (toLowerCase b) with
  | Lt => (-1)%Z
  | Eq => codeUnitCompare b a
  | Gt => 1%Z
  end.

Definition app_a := record "a1" "app-a" "running".
Definition app_b := record "a2" "app-b" "running".
Definition app_C := record "a3" "app-C" "running".

Definition svc_alpha := record "s1" "alpha" "running".
Definition svc_Beta := record "s2" "Beta" "running".

(** ** The same function on the heap

    Records are objects and arrays hold references, so the member lists of
    the output alias the records of the input.  The two [Map]s of the first
    pass and the [groups] map are locals of one call and stay values. *)

Module Mem.

(** An address; objects and arrays have address spaces of their own. *)
Definition ref := nat.

Record Heap := {
  objects : gmap ref ContainerInfo;
  arrays : gmap ref (list ref)
}.

(** Computations on the heap; [None] is a read or write through a dangling
    reference, or a loop out of fuel. *)
Definition M (A : Type) : Type := Heap -> option (A * Heap).

Definition ret {A} (a : A) : M A := fun h => Some (a, h).

Definition bind {A B} (m : M A) (k : A -> M B) : M B :=
  fun h => match m h with
           | Some (a, h') => k a h'
           | None => None
           end.

Definition fail {A} : M A := fun _ => None.

Notation "'let*' x ':=' m 'in' k" := (bind m (fun x => k))
  (at level 10, x name, m at level 100, k at level 200).

(** Reading the fields of the record at [r]. *)
Definition get_object (r : ref) : M ContainerInfo :=
  fun h => match objects h !! r with
           | Some o => Some (o, h)
           | None => None
           end.

Fixpoint get_objects (rs : list ref) : M (list ContainerInfo) :=
  match rs with
  | [] => ret []
  | r :: rs' =>
      let* o := get_object r in
      let* os := get_objects rs' in
      ret (o :: os)
  end.

Definition array_read (a : ref) : M (list ref) :=
  fun h => match arrays h !! a with
           | Some rs => Some (rs, h)
           | None => None
           end.

(** The heap with [rs] stored at [a]. *)
Definition with_array (h : Heap) (a : ref) (rs : list ref) : Heap :=
  {| objects := objects h; arrays := <[a := rs]> (arrays h) |}.

Definition array_write (a : ref) (rs : list ref) : M unit :=
  fun h => match arrays h !! a with
           | Some _ => Some (tt, with_array h a rs)
           | None => None
           end.

(** An array literal: a new array at an address not in use. *)
Definition array_new (rs : list ref) : M ref :=
  fun h => let a := fresh (dom (arrays h)) in Some (a, with_array h a rs).

(** [a.push(x)] *)
Definition array_push (a : ref) (x : ref) : M unit :=
  let* rs := array_read a in array_write a (rs ++ [x]).

(** [for (const c of arr)]: the iterator reads the array anew at every
    turn, from index [i] on. *)
Fixpoint for_of {S} (fuel : nat) (arr : ref) (i : nat)
    (body : S -> ref -> M S) (s : S) : M S :=
  match fuel with
  | 0 => fail
  | Datatypes.S fuel' =>
      let* rs := array_read arr in
      match rs !! i with
      | None => ret s
      | Some c =>
          let* s' := body s c in for_of fuel' arr (Datatypes.S i) body s'
      end
  end.

(** A loop over a local list. *)
Fixpoint for_each {S X} (xs : list X) (body : S -> X -> M S) (s : S) : M S :=
  match xs with
  | [] => ret s
  | x :: xs' => let* s' := body s x in for_each xs' body s'
  end.

(** Body of the first loop. *)
Definition first_pass_step
    (st : gmap string nat * gmap string (list string)) (c : ref)
  : M (gmap string nat * gmap string (list string)) :=
  let* o := get_object c in ret (first_pass_body st o).

(** [groups.get(k)] *)
Fixpoint Map_get (groups : list (string * ref)) (k : string) : option ref :=
  match groups with
  | [] => None
  | (k', a) :: rest => if String.eqb k' k then Some a else Map_get rest k
  end.

(** Body of the second loop. *)
Definition second_pass_step (candidateCounts : gmap string nat)
    (candidatesById : gmap string (list string))
    (groups : list (string * ref)) (c : ref) : M (list (string * ref)) :=
  let* o := get_object c in
  let bestKey := select_key candidateCounts candidatesById o in
  match Map_get groups bestKey with
  | Some existing => let* _ := array_push existing c in ret groups
  | None => let* items := array_new [c] in ret (groups ++ [(bestKey, items)])
  end.

(** A group object; [g_containers] is the address of its member array. *)
Record GroupObject := {
  g_key : string;
  g_containers : ref;
  g_runningCount : nat;
  g_stoppedCount : nat
}.

Section Sorting.

Variable localeCompare : string -> string -> Z.

(** [items.sort((a, b) => ...)]: the comparator reads the fields of the
    two records; the array is reordered in place. *)
Definition sort_members (items : ref) : M unit :=
  let* rs := array_read items in
  let* os := get_objects rs in
  array_write items
    (map fst (Array_sort
                (fun a b => member_compare localeCompare (snd a) (snd b))
                (combine rs os))).

(** Body of the third loop.  The array made by [items.filter] is dropped
    at once; only its length is kept. *)
Definition make_group_step (out : list GroupObject)
    (entry : string * ref) : M (list GroupObject) :=
  let '(key, items) := entry in
  let* rs := array_read items in
  let* os := get_objects rs in
  let runningCount := length (List.filter is_running os) in
  let stoppedCount := length rs - runningCount in
  let* _ := sort_members items in
  ret (out ++ [ {| g_key := key; g_containers := items;
                   g_runningCount := runningCount;
                   g_stoppedCount := stoppedCount |} ]).

(** The comparator of [out.sort], on a group and the length read from
    its member array. *)
Definition group_compare_at (a b : GroupObject * nat) : Z :=
  let ar := (0 <? g_runningCount (fst a))%nat in
  let br := (0 <? g_runningCount (fst b))%nat in
  if negb (Bool.eqb ar br) then (if ar then -1 else 1)%Z
  else if negb (snd a =? snd b)%nat
       then (Z.of_nat (snd b) - Z.of_nat (snd a))%Z
       else localeCompare (g_key (fst a)) (g_key (fst b)).

Fixpoint read_lengths (out : list GroupObject) : M (list nat) :=
  match out with
  | [] => ret []
  | g :: out' =>
      let* rs := array_read (g_containers g) in
      let* ns := read_lengths out' in
      ret (length rs :: ns)
  end.

Definition sort_groups (out : list GroupObject) : M (list GroupObject) :=
  let* ns := read_lengths out in
  ret (map fst (Array_sort group_compare_at (combine out ns))).

Definition groupContainersByNamePrefix (fuel : nat) (containers : ref)
  : M (list GroupObject) :=
  let* st := for_of fuel containers 0 first_pass_step (∅, ∅) in
  let '(candidateCounts, candidatesById) := st in
  let* groups := for_of fuel containers 0
              (second_pass_step candidateCounts candidatesById) [] in
  let* out := for_each groups make_group_step [] in
  sort_groups out.

End Sorting.

(** The records behind a list of references. *)
Definition deref (h : Heap) (rs : list ref) : option (list ContainerInfo) :=
  mapM (fun r => objects h !! r) rs.

(** The snapshot held in the array at [a]. *)
Definition snapshot (h : Heap) (a : ref) : option (list ContainerInfo) :=
  match arrays h !! a with
  | Some rs => deref h rs
  | None => None
  end.

(** A group object read back as a value. *)
Definition view_group (h : Heap) (g : GroupObject) : option ContainerGroup :=
  match snapshot h (g_containers g) with
  | Some os => Some {| key := g_key g; containers := os;
                       runningCount := g_runningCount g;
                       stoppedCount := g_stoppedCount g |}
  | None => None
  end.

Definition view (h : Heap) (out : list GroupObject)
  : option (list ContainerGroup) :=
  mapM (view_group h) out.

End Mem.

(** Records with blank names, a repeated id, a padded id, or no name and
    id. *)
Definition blank_a := record "a" " " "running".
Definition blank_b := record "b" " " "running".
Definition twin_1 := record "x" "web-1" "running".
Definition twin_2 := record "x" "db" "running".
Definition twin_3 := record "y" "db-2" "running".

Definition blank_c1 := record "c1" " " "running".
Definition padded_c1 := record " c1" "" "running".

Definition nameless := record "" "" "exited".
Definition blank_x := record "x" " " "running".

(** A heap with the three records of scenario B and their array at
    address 0. *)
Definition heap_B : Mem.Heap :=
  {| Mem.objects := <[0 := db]> (<[1 := db_replica_1]> (<[2 := db_replica_2]> ∅));
     Mem.arrays := <[0 := [0; 1; 2]]> ∅ |}.

(** ** The heap-level map of groups and the value-level one *)

(** A heap entry of the [groups] map stands for an entry of the map of
    the value-level function. *)
Definition group_entry (h : Mem.Heap) (e : string * Mem.ref)
    (pe : string * list ContainerInfo) : Prop :=
  e.1 = pe.1 /\ Mem.snapshot h e.2 = Some pe.2.

(** What the second loop keeps: the objects and the arrays that existed
    at the call are as they were; the arrays of the groups are new and
    pairwise distinct; the map stands for the map of the value-level
    function. *)
Definition groups_inv (h0 h : Mem.Heap) (G : list (string * Mem.ref))
    (PG : list (string * list ContainerInfo)) : Prop :=
  Mem.objects h = Mem.objects h0
  /\ (forall a, a ∈ dom (Mem.arrays h0) -> Mem.arrays h !! a = Mem.arrays h0 !! a)
  /\ Forall (fun e => e.2 ∉ dom (Mem.arrays h0)) G
  /\ NoDup (G.*2)
  /\ Forall2 (group_entry h) G PG.

(** ** The rest of the component *)

(** [const running = containers.filter(c => c.state === "running")], the
    list the dashboard counts and shows. *)
Definition running (cs : list ContainerInfo) : list ContainerInfo :=
  List.filter is_running cs.

(** *** Expanded groups *)

Section Expanded.

(** The property names that every object inherits from [Object.prototype];
    reading one of them from an object without such an own property gives a
    function or an object, which is truthy. *)
Variable inherited : string -> bool.

(** [!!state[key]] for a [Record<string, boolean>]. *)
Definition truthy_at (state : gmap string bool) (key : string) : bool :=
  match state !! key with
  | Some b => b
  | None => inherited key
  end.

(** The updater of [toggleContainerGroup]:
    [(prev) => ({ ...prev, [key]: !prev[key] })]. *)
Definition toggleContainerGroup (key : string) (prev : gmap string bool)
  : gmap string bool :=
  <[key := negb (truthy_at prev key)]> prev.

(** *** The containers page *)

(** What a container card shows. *)
Record CardView := {
  card_key : string;
  card_child : bool;
  card_running : bool;
  card_name : string;
  card_image : string;
  card_meta : string;
  card_status : string;
  card_disabled : bool
}.

(** A row of the page: a card, or the header of a group with the cards of
    its members when it is expanded. *)
Inductive Element :=
| Card (v : CardView)
| Group (group_key : string) (expanded hasRunning : bool)
    (running_shown stopped_shown : nat) (children : option (list CardView)).

Inductive Page :=
| Loading
| ErrorMessage (e : string)
| EmptyState
| Rows (rows : list Element).

Variable localeCompare : string -> string -> Z.
Variable acting : string.
Variable expandedContainerGroups : gmap string bool.

Definition renderContainerCard (c : ContainerInfo) (child : bool) : CardView :=
  let isRunning := is_running c in
  let name := name_or_id c in
  let meta := if isRunning
              then (if is_empty (ports c) then id c else ports c)
              else id c in
  {| card_key := id c; card_child := child; card_running := isRunning;
     card_name := name; card_image := image c; card_meta := meta;
     card_status := status c; card_disabled := String.eqb acting (id c) |}.

(** The callback of [groups.map]; [None] is the TypeError of reading a field
    of [undefined], were [g.containers[0]] missing. *)
Definition render_group (g : ContainerGroup) : option Element :=
  if (length (containers g) <=? 1)%nat then
    match containers g with
    | c :: _ => Some (Card (renderContainerCard c false))
    | [] => None
    end
  else
    let expanded := truthy_at expandedContainerGroups (key g) in
    let hasRunning := (0 <? runningCount g)%nat in
    Some (Group (key g) expanded hasRunning (runningCount g) (stoppedCount g)
            (if expanded
             then Some (map (fun c => renderContainerCard c true)
                          (containers g))
             else None)).

Definition renderContainers (loading : bool) (error : string)
    (containers : list ContainerInfo) : option Page :=
  if loading then Some Loading
  else if negb (is_empty error) then Some (ErrorMessage error)
  else if (length containers =? 0)%nat then Some EmptyState
  else Rows <$> mapM render_group
                  (groupContainersByNamePrefix localeCompare containers).

End Expanded.

(** The React keys of the cards on a page. *)
Definition shown_keys (rows : list Element) : list string :=
  concat (map (fun e => match e with
                        | Card v => [card_key v]
                        | Group _ _ _ _ _ (Some children) => map card_key children
                        | Group _ _ _ _ _ None => []
                        end) rows).

(** The group is shown as a header without its members. *)
Definition collapsed (inherited : string -> bool) (state : gmap string bool)
    (g : ContainerGroup) : bool :=
  negb (length (containers g) <=? 1)%nat
  && negb (truthy_at inherited state (key g)).

(** *** The default tag of the package dialog *)

(** [s.split(":")[0]] *)
Fixpoint before_colon (s : string) : string :=
  match s with
  | EmptyString => EmptyString
  | String c r => if Ascii.eqb c ":" then EmptyString
                  else String c (before_colon r)
  end.

(** [`${(c.image || "image").split(":")[0]}-snapshot:latest`] *)
Definition defaultTag (c : ContainerInfo) : string :=
  before_colon (if is_empty (image c) then "image" else image c)
  ++ "-snapshot:latest".

(** [(line.match(/x/g) || []).length] for a single character [x]. *)
Fixpoint count_char (x : ascii) (s : string) : nat :=
  match s with
  | EmptyString => 0
  | String c r => (if Ascii.eqb c x then 1 else 0) + count_char x r
  end.

(** *** Requests to the backend *)

Record MountAddArgs := {
  arg_vm : string;
  arg_tag : string;
  arg_host_path : string;
  arg_guest_path : string;
  arg_readonly : bool
}.

(** The arguments [doMountAdd] passes to [vm_mount_add]; [None] when it
    returns without a request. *)
Definition doMountAdd_args (mountVmId mountTag mountHostPath
    mountGuestPath : string) (mountReadonly : bool) : option MountAddArgs :=
  if is_empty mountVmId || is_empty (trim mountTag)
     || is_empty (trim mountHostPath)
  then None
  else Some {| arg_vm := mountVmId;
               arg_tag := trim mountTag;
               arg_host_path := trim mountHostPath;
               arg_guest_path := if is_empty (trim mountGuestPath)
                                 then "/mnt/host" else trim mountGuestPath;
               arg_readonly := mountReadonly |}.

Section Run.

(** JavaScript numbers; an input left empty holds [""], here [None]. *)
Variable number : Type.

Record RunArgs := {
  run_image : string;
  run_name : option string;
  run_cpus : option number;
  run_memory_mb : option number;
  run_pull : bool
}.

(** The arguments [doRun] passes to [docker_run]; [None] when it returns
    without a request. *)
Definition doRun_args (runImage runName : string)
    (runCpus runMem : option number) (runPull : bool) : option RunArgs :=
  if is_empty runImage then None
  else Some {| run_image := runImage;
               run_name := if negb (is_empty (trim runName))
                           then Some (trim runName) else None;
               run_cpus := runCpus;
               run_memory_mb := runMem;
               run_pull := runPull |}.

End Run.

(** ** The check of the translation tables

    The script that compares the keys of the [en] and [zh] blocks of the
    message tables, as a function of the text of the file it reads. *)

Definition LF : ascii := "010".
Definition CR : ascii := "013".

(** A line put in front of the first piece of a split. *)
Definition cons_first (c : ascii) (pieces : list string) : list string :=
  match pieces with
  | l :: ls => String c l :: ls
  | [] => [String c EmptyString]
  end.

(** [src.split(/\r?\n/)] *)
Fixpoint split_lines (src : string) : list string :=
  match src with
  | EmptyString => [EmptyString]
  | String c r =>
      if Ascii.eqb c LF then EmptyString :: split_lines r
      else
        match r with
        | String c' r' =>
            if Ascii.eqb c CR && Ascii.eqb c' LF
            then EmptyString :: split_lines r'
            else cons_first c (split_lines r)
        | EmptyString => [String c EmptyString]
        end
  end.

(** [hay.includes(needle)] *)
Fixpoint includes (needle hay : string) : bool :=
  match hay with
  | EmptyString => String.prefix needle EmptyString
  | String _ r => String.prefix needle hay || includes needle r
  end.

(** The depth change of a line: its count of "{" less its count of "}". *)
Definition brace_delta (line : string) : Z :=
  (Z.of_nat (count_char "{" line) - Z.of_nat (count_char "}" line))%Z.

(** The class [[A-Za-z0-9_]]. *)
Definition is_ident (c : ascii) : bool :=
  let n := nat_of_ascii c in
  (Nat.leb 65 n && Nat.leb n 90) || (Nat.leb 97 n && Nat.leb n 122)
  || (Nat.leb 48 n && Nat.leb n 57) || Nat.eqb n 95.

(** The longest run of identifier characters at the start of [s], and the
    rest of [s]. *)
Fixpoint ident_span (s : string) : string * string :=
  match s with
  | EmptyString => (EmptyString, EmptyString)
  | String c r =>
      if is_ident c then let '(a, b) := ident_span r in (String c a, b)
      else (EmptyString, s)
  end.

(** Does [\s*:] match at the start of [s]? *)
Definition after_colon (s : string) : bool :=
  match trimStart s with
  | String c _ => Ascii.eqb c ":"
  | EmptyString => false
  end.

(** Does [\s*:\s*\{] match at the start of [s]? *)
Definition after_colon_brace (s : string) : bool :=
  match trimStart s with
  | String c r =>
      Ascii.eqb c ":"
      && match trimStart r with
         | String c' _ => Ascii.eqb c' "{"
         | EmptyString => false
         end
  | EmptyString => false
  end.

(** [line.match(/^\s*([A-Za-z0-9_]+)\s*:\s*\{/)], the captured word. *)
Definition match_block_open (line : string) : option string :=
  let '(word, rest) := ident_span (trimStart line) in
  if is_empty word then None
  else if after_colon_brace rest then Some word else None.

(** [line.match(/^\s*([A-Za-z0-9_]+)\s*:\s*/)], the captured word. *)
Definition match_key (line : string) : option string :=
  let '(word, rest) := ident_span (trimStart line) in
  if is_empty word then None
  else if after_colon rest then Some word else None.

Fixpoint strip_prefix (p s : string) : option string :=
  match p with
  | EmptyString => Some s
  | String a p' =>
      match s with
      | String b s' => if Ascii.eqb a b then strip_prefix p' s' else None
      | EmptyString => None
      end
  end.

(** [startRe.test(line)] for [^\s*LANG\s*:\s*\{], where [lang] is a word (the
    script passes "en" and "zh"). *)
Definition test_block_start (lang line : string) : bool :=
  match strip_prefix lang (trimStart line) with
  | Some rest => after_colon_brace rest
  | None => false
  end.

(** The loop of [topLevelLangs]. *)
Fixpoint topLevelLangs_loop (lines : list string) (inMessages : bool)
    (depth : Z) (langs : list string) : list string :=
  match lines with
  | [] => langs
  | line :: rest =>
      if negb inMessages then
        if includes "export const messages" line
        then topLevelLangs_loop rest true (depth + brace_delta line)%Z langs
        else topLevelLangs_loop rest false depth langs
      else
        let langs :=
          if (depth =? 1)%Z then
            match match_block_open line with
            | Some m => Set_add m langs
            | None => langs
            end
          else langs in
        let depth := (depth + brace_delta line)%Z in
        if (depth <=? 0)%Z then langs
        else topLevelLangs_loop rest true depth langs
  end.

Definition topLevelLangs (lines : list string) : list string :=
  topLevelLangs_loop lines false 0%Z [].

(** A line that starts, after white space, with "//", "/*" or "*". *)
Definition is_comment_line (line : string) : bool :=
  let stripped := trimStart line in
  String.prefix "//" stripped || String.prefix "/*" stripped
  || String.prefix "*" stripped.

(** The loop of [extractLangKeys]. *)
Fixpoint extractLangKeys_loop (lang : string) (lines : list string)
    (inBlock : bool) (depth : Z) (keys : list string) : list string :=
  match lines with
  | [] => keys
  | line :: rest =>
      if negb inBlock then
        if test_block_start lang line
        then extractLangKeys_loop lang rest true (depth + brace_delta line)%Z
               keys
        else extractLangKeys_loop lang rest false depth keys
      else
        let keys :=
          if negb (is_comment_line line) then
            match match_key line with
            | Some m => keys ++ [m]
            | None => keys
            end
          else keys in
        let depth := (depth + brace_delta line)%Z in
        if (depth <=? 0)%Z then keys
        else extractLangKeys_loop lang rest true depth keys
  end.

Definition extractLangKeys (lang : string) (lines : list string)
  : list string :=
  extractLangKeys_loop lang lines false 0%Z [].

(** [[...a].filter((k) => !b.has(k))] on two sets. *)
Definition missing_from (a b : list string) : list string :=
  filter (fun k => k ∉ b) a.

(** [xs.join(sep)] *)
Fixpoint join (sep : string) (xs : list string) : string :=
  match xs with
  | [] => EmptyString
  | [x] => x
  | x :: r => (x ++ sep ++ join sep r)%string
  end.

(** The keys of [a] that [b] lacks, as reported: each once, sorted by code
    units ([sort()] without comparator). *)
Definition missing_keys (a b : list string) : list string :=
  Array_sort codeUnitCompare (missing_from (Set_from a) (Set_from b)).

(** How the script ends: [process.exit(1)] after the lines written to the
    error stream, or the line written to the output. *)
Inductive Outcome :=
| Exit1 (errors : list string)
| Done (log : string).

Definition is_nil {A} (l : list A) : bool :=
  match l with
  | [] => true
  | _ :: _ => false
  end.

Definition i18n_check (src : string) : Outcome :=
  let lines := split_lines src in
  let langs := topLevelLangs lines in
  let expected := Set_from ["en"; "zh"] in
  let missingLangs := missing_from expected langs in
  let extraLangs := missing_from langs expected in
  if negb (is_nil missingLangs) || negb (is_nil extraLangs) then
    Exit1
      ((if negb (is_nil missingLangs)
        then [("ERROR: i18n: missing language blocks: " ++ join ", " missingLangs)%string]
        else [])
       ++ (if negb (is_nil extraLangs)
           then [("ERROR: i18n: unsupported language blocks: " ++ join ", " extraLangs)%string]
           else []))
  else
    let missingInZh :=
      missing_keys (extractLangKeys "en" lines) (extractLangKeys "zh" lines) in
    let missingInEn :=
      missing_keys (extractLangKeys "zh" lines) (extractLangKeys "en" lines) in
    if negb (is_nil missingInZh) || negb (is_nil missingInEn) then
      Exit1
        ((if negb (is_nil missingInZh)
          then [("ERROR: i18n: missing zh keys: " ++ join ", " missingInZh)%string]
          else [])
         ++ (if negb (is_nil missingInEn)
             then [("ERROR: i18n: missing en keys: " ++ join ", " missingInEn)%string]
             else []))
    else Done "i18n OK: en/zh keys are in sync".

(** A small table file, with a key that [zh] lacks in the second. *)
Definition table_ok : string :=
  ("export const messages = {" ++ String LF
  ("  en: {" ++ String LF
  ("    start: 'Start'," ++ String LF
  ("    // stop: 'old'," ++ String LF
  ("    stop: 'Stop'," ++ String LF
  ("  }," ++ String LF
  ("  zh: {" ++ String LF
  ("    stop: 'ting'," ++ String CR (String LF
  ("    start: 'kai'," ++ String LF
  ("  }," ++ String LF
  ("}" ++ String LF ""))))))))))))%string.

Definition table_missing : string :=
  ("export const messages = {" ++ String LF
  ("  en: {" ++ String LF
  ("    start: 'Start'," ++ String LF
  ("    stop: 'Stop'," ++ String LF
  ("    copy: 'Copy'," ++ String LF
  ("  }," ++ String LF
  ("  zh: {" ++ String LF
  ("    start: 'kai'," ++ String LF
  ("  }," ++ String LF
  ("}" ++ String LF ""))))))))))%string.

(** A non-empty word of the class [[A-Za-z0-9_]]. *)
Fixpoint all_ident (s : string) : bool :=
  match s with
  | EmptyString => true
  | String c r => is_ident c && all_ident r
  end.

Definition identifier (s : string) : Prop :=
  s <> EmptyString /\ all_ident s = true.

(** Does the depth, starting from [depth], fall to 0 or below after one of
    the lines of [body]? *)
Fixpoint closes_in (depth : Z) (body : list string) : bool :=
  match body with
  | [] => false
  | line :: rest =>
      let depth := (depth + brace_delta line)%Z in
      (depth <=? 0)%Z || closes_in depth rest
  end.


(** * Properties *)

(** ** Strings *)

Lemma is_empty_true (s : string) : is_empty s = true <-> s = "".
Proof. destruct s; simpl; split; congruence. Qed.

Lemma is_empty_false (s : string) : is_empty s = false <-> s <> "".
Proof. destruct s; simpl; split; congruence. Qed.

Lemma substring_0_0 (s : string) : String.substring 0 0 s = "".
Proof. by destruct s. Qed.

Lemma suffix_from_0 (s : string) : suffix_from 0 s = s.
Proof.
  unfold suffix_from. rewrite Nat.sub_0_r.
  induction s as [|c r IH]; simpl; [done|]. by rewrite IH.
Qed.

Lemma suffix_from_S (i : nat) (c : ascii) (r : string) :
  suffix_from (S i) (String c r) = suffix_from i r.
Proof. done. Qed.

Lemma is_digit_not_sep (c : ascii) : is_digit c = true -> is_sep c = false.
Proof.
  unfold is_digit, is_sep. intros H.
  destruct (Ascii.eqb_spec c "-") as [->|_]; [done|].
  destruct (Ascii.eqb_spec c "_") as [->|_]; done.
Qed.

(** ** The insertion-ordered set *)

Lemma omap_seq_S {A} (f : nat -> option A) (n : nat) :
  omap f (seq 0 (S n)) = omap f [0] ++ omap (fun i => f (S i)) (seq 0 n).
Proof.
  change (seq 0 (S n)) with ([0] ++ seq 1 n).
  rewrite omap_app. f_equal.
  rewrite <- (fmap_S_seq 0 n). generalize (seq 0 n) as l.
  induction l as [|i l IH]; [done|].
  rewrite fmap_cons. simpl. destruct (f (S i)); [f_equal|]; exact IH.
Qed.

Lemma filter_all {A} (P : A -> Prop) `{!forall x, Decision (P x)} (l : list A) :
  (forall y, y ∈ l -> P y) -> filter P l = l.
Proof.
  induction l as [|x l IH]; intros Hall; [done|].
  rewrite filter_cons_True by (apply Hall; left).
  f_equal. apply IH. intros y Hy. apply Hall. by right.
Qed.

Lemma foldl_Set_add (xs acc : list string) :
  foldl (fun out x => Set_add x out) acc xs
  = acc ++ filter (fun y => y ∉ acc) (dedup_keep_first xs).
Proof.
  revert acc. induction xs as [|x r IH]; intros acc; simpl.
  - by rewrite app_nil_r.
  - rewrite IH. unfold Set_add. case_bool_decide as Hx.
    + rewrite filter_cons_False by (intros H; by apply H).
      rewrite list_filter_filter. f_equal.
      apply list_filter_iff. intros y. split; [|tauto].
      intros Hy. split; [done|]. intros ->. done.
    + rewrite filter_cons_True by done.
      rewrite <- app_assoc. simpl. do 2 f_equal.
      rewrite list_filter_filter.
      apply list_filter_iff. intros y. rewrite elem_of_app, list_elem_of_singleton.
      tauto.
Qed.

Lemma Set_from_dedup (xs : list string) : Set_from xs = dedup_keep_first xs.
Proof.
  unfold Set_from. rewrite foldl_Set_add. simpl.
  apply filter_all. intros y _. apply not_elem_of_nil.
Qed.

Lemma dedup_keep_first_NoDup (xs : list string) : NoDup (dedup_keep_first xs).
Proof.
  induction xs as [|x r IH]; simpl; [constructor|].
  constructor.
  - rewrite list_elem_of_filter. tauto.
  - by apply NoDup_filter.
Qed.

Lemma dedup_keep_first_elem (xs : list string) (y : string) :
  y ∈ dedup_keep_first xs <-> y ∈ xs.
Proof.
  induction xs as [|x r IH]; simpl; [done|].
  rewrite !elem_of_cons, list_elem_of_filter, IH.
  destruct (decide (y = x)); tauto.
Qed.

Lemma dedup_keep_first_id (xs : list string) :
  NoDup xs -> dedup_keep_first xs = xs.
Proof.
  induction 1 as [|x r Hx _ IH]; simpl; [done|].
  rewrite IH. f_equal. apply filter_all.
  intros y Hy ->. done.
Qed.

(** ** Candidate generator *)

Example candidates_padded :
  containerGroupCandidates "  web-01-2 " = ["web-01-2"; "web-01"; "web"].
Proof. reflexivity. Qed.

Example candidates_mixed_separators :
  containerGroupCandidates "a_b-c_12" = ["a_b-c_12"; "a_b-c"; "a"; "a_b"].
Proof. reflexivity. Qed.

Example candidates_no_remainder : containerGroupCandidates "-1" = ["-1"].
Proof. reflexivity. Qed.

Example candidates_blank : containerGroupCandidates "  " = [].
Proof. reflexivity. Qed.

Lemma candidate_loop_prefixes (t : string) (l : list nat) (out : list string) :
  foldl (candidate_loop_body t) out l
  = foldl (fun out x => Set_add x out) out
      (omap (fun i => match String.get i t with
                      | Some ch =>
                          if is_sep ch && negb (is_empty (String.substring 0 i t))
                          then Some (String.substring 0 i t) else None
                      | None => None
                      end) l).
Proof.
  revert out. induction l as [|i l IH]; intros out; [done|].
  simpl. rewrite IH. unfold candidate_loop_body.
  destruct (String.get i t) as [ch|]; [|done].
  destruct (is_sep ch); [|done].
  destruct (is_empty (String.substring 0 i t)); done.
Qed.

Lemma spec_remainders_cons (c : ascii) (r : string) :
  spec_remainders (String c r)
  = (if is_index_suffix (String c r) then [""] else [])
    ++ map (String c) (spec_remainders r).
Proof.
  unfold spec_remainders.
  change (String.length (String c r)) with (S (String.length r)).
  rewrite omap_seq_S. f_equal.
  - cbn [omap list_omap]. rewrite suffix_from_0.
    by destruct (is_index_suffix (String c r)).
  - generalize (seq 0 (String.length r)) as l.
    induction l as [|i l IH]; [done|].
    cbn [omap list_omap map]. rewrite suffix_from_S.
    destruct (is_index_suffix (suffix_from i r)); [|exact IH].
    cbn [map]. change (String.substring 0 (S i) (String c r))
      with (String c (String.substring 0 i r)).
    f_equal. exact IH.
Qed.

Lemma spec_remainders_digits (r : string) :
  all_digits r = true -> spec_remainders r = [].
Proof.
  induction r as [|c r IH]; [done|].
  simpl. intros [Hc Hr]%andb_prop.
  rewrite spec_remainders_cons, IH by done.
  unfold is_index_suffix. by rewrite (is_digit_not_sep c Hc).
Qed.

(** The regular expression has at most one match, at the only split where
    the rest of the string is a separator and digits. *)
Lemma replace_sep_digits_end_spec (t : string) :
  (spec_remainders t = [] /\ replace_sep_digits_end t = t)
  \/ spec_remainders t = [replace_sep_digits_end t].
Proof.
  induction t as [|c r IH]; [by left|].
  rewrite spec_remainders_cons. simpl.
  unfold digits_to_end.
  rewrite andb_assoc.
  destruct (is_sep c && negb (is_empty r) && all_digits r) eqn:Hm.
  - right. apply andb_prop in Hm as [_ Hd].
    by rewrite spec_remainders_digits.
  - destruct IH as [[-> ->] | ->]; [by left|by right].
Qed.

Lemma candidates_stripped (t : string) :
  t <> "" ->
  (if is_empty (replace_sep_digits_end t) then Set_add t []
   else Set_add (replace_sep_digits_end t) (Set_add t []))
  = foldl (fun out x => Set_add x out) [t] (spec_stripped t).
Proof.
  intros Ht. unfold spec_stripped.
  change (Set_add t []) with [t].
  destruct (replace_sep_digits_end_spec t) as [[-> ->] | ->].
  - apply is_empty_false in Ht. rewrite Ht. simpl.
    unfold Set_add. rewrite bool_decide_eq_true_2; [done|by left].
  - simpl. by destruct (is_empty (replace_sep_digits_end t)).
Qed.

Lemma containerGroupCandidates_spec (name : string) :
  containerGroupCandidates name
  = if is_empty (trim name) then [] else spec_candidates (trim name).
Proof.
  unfold containerGroupCandidates.
  destruct (is_empty (trim name)) eqn:He; [done|].
  apply is_empty_false in He. cbn zeta.
  rewrite candidate_loop_prefixes.
  fold (spec_sep_prefixes (trim name)).
  rewrite (candidates_stripped _ He).
  rewrite <- foldl_app.
  change (foldl (fun out x => Set_add x out) [trim name]
            (spec_stripped (trim name) ++ spec_sep_prefixes (trim name)))
    with (Set_from (trim name :: spec_stripped (trim name)
                      ++ spec_sep_prefixes (trim name))).
  by rewrite Set_from_dedup.
Qed.

Lemma containerGroupCandidates_NoDup (name : string) :
  NoDup (containerGroupCandidates name).
Proof.
  rewrite containerGroupCandidates_spec.
  destruct (is_empty (trim name)); [constructor|].
  apply dedup_keep_first_NoDup.
Qed.

(** C2: for a name whose trimmed form [t] is not empty, the candidates are
    [t], then the remainder of [t] without one trailing "-<digits>" or
    "_<digits>" when that remainder is not empty, then the non-empty
    prefixes before each separator from left to right; every string is kept
    once, at its first position. *)
Theorem C2_candidate_order (name : string) :
  trim name <> "" ->
  containerGroupCandidates name
  = dedup_keep_first
      (trim name :: spec_stripped (trim name) ++ spec_sep_prefixes (trim name))
  /\ NoDup (containerGroupCandidates name).
Proof.
  intros Ht. split.
  - rewrite containerGroupCandidates_spec.
    apply is_empty_false in Ht. by rewrite Ht.
  - apply containerGroupCandidates_NoDup.
Qed.

Lemma C2_candidate_order_witness :
  trim " web-01-2 " <> ""
  /\ containerGroupCandidates " web-01-2 " = ["web-01-2"; "web-01"; "web"].
Proof.
  split; [done|].
  destruct (C2_candidate_order " web-01-2 ") as [-> _]; [done|].
  reflexivity.
Defined.

(** ** Trimming *)

Lemma trimStart_head (s : string) :
  trimStart s = ""
  \/ exists c r, trimStart s = String c r /\ is_white_space c = false.
Proof.
  induction s as [|c r IH]; [by left|].
  simpl. destruct (is_white_space c) eqn:Hc; [done|].
  right. by exists c, r.
Qed.

Lemma trimEnd_idemp (s : string) : trimEnd (trimEnd s) = trimEnd s.
Proof.
  induction s as [|c r IH]; [done|].
  simpl. destruct (is_white_space c && is_empty (trimEnd r)) eqn:Hc; [done|].
  simpl. rewrite IH. by rewrite Hc.
Qed.

Lemma trim_idemp (s : string) : trim (trim s) = trim s.
Proof.
  unfold trim.
  destruct (trimStart_head s) as [->|(c & r & -> & Hc)]; [done|].
  simpl. rewrite Hc. simpl. rewrite Hc. simpl.
  rewrite trimEnd_idemp. by rewrite Hc.
Qed.

(** ** Candidates are non-empty prefixes, the full name first *)

Lemma spec_candidates_head (t : string) :
  exists rest, spec_candidates t = t :: rest.
Proof. unfold spec_candidates. simpl. eauto. Qed.

Lemma spec_candidates_nonempty (t s : string) :
  t <> "" -> s ∈ spec_candidates t -> s <> "".
Proof.
  intros Ht. unfold spec_candidates.
  rewrite dedup_keep_first_elem, elem_of_cons, elem_of_app.
  intros [->|[Hs|Hs]]; [done| |].
  - unfold spec_stripped in Hs. apply list_elem_of_In, filter_In in Hs as [_ Hs].
    apply negb_true_iff, is_empty_false in Hs. done.
  - unfold spec_sep_prefixes in Hs.
    apply list_elem_of_omap in Hs as (i & _ & Hi).
    destruct (String.get i t) as [ch|]; [|done].
    destruct (is_sep ch); [|done]. simpl in Hi.
    destruct (is_empty (String.substring 0 i t)) eqn:He; [done|].
    simpl in Hi. injection Hi as <-. by apply is_empty_false.
Qed.

Lemma candidates_nonempty (name s : string) :
  s ∈ containerGroupCandidates name -> s <> "".
Proof.
  rewrite containerGroupCandidates_spec.
  destruct (is_empty (trim name)) eqn:He.
  - by intros ?%elem_of_nil.
  - apply spec_candidates_nonempty. by apply is_empty_false.
Qed.

Lemma candidates_for_self (c : ContainerInfo) :
  trim (name_or_id c) <> "" -> trim (name_or_id c) ∈ candidates_for c.
Proof.
  intros Ht. unfold candidates_for.
  rewrite containerGroupCandidates_spec, trim_idemp.
  apply is_empty_false in Ht. rewrite Ht.
  destruct (spec_candidates_head (trim (name_or_id c))) as [rest ->]. left.
Qed.

Lemma candidates_for_empty (c : ContainerInfo) :
  trim (name_or_id c) = "" -> candidates_for c = [].
Proof.
  intros Ht. unfold candidates_for.
  rewrite containerGroupCandidates_spec, trim_idemp, Ht. done.
Qed.

(** ** First pass *)

Lemma count_candidate_lookup (m : gmap string nat) (x s : string) :
  default 0 (count_candidate m x !! s)
  = default 0 (m !! s) + (if decide (s = x) then 1 else 0).
Proof.
  unfold count_candidate. destruct (decide (s = x)) as [->|Hne].
  - by rewrite lookup_insert_eq.
  - rewrite lookup_insert_ne by done. lia.
Qed.

Lemma count_candidates_lookup (l : list string) (m : gmap string nat) (s : string) :
  NoDup l ->
  default 0 (foldl count_candidate m l !! s)
  = default 0 (m !! s) + (if decide (s ∈ l) then 1 else 0).
Proof.
  intros Hl. revert m. induction Hl as [|x l Hx _ IH]; intros m.
  - case_decide as Hs; [by apply elem_of_nil in Hs|]. simpl. lia.
  - cbn [foldl fold_left]. rewrite IH, count_candidate_lookup.
    destruct (decide (s ∈ l)) as [Hl|Hl], (decide (s = x)) as [Heq|Hne],
             (decide (s ∈ x :: l)) as [Hc|Hc]; try lia; exfalso.
    all: first [ by subst | by apply Hc; right | by apply Hc; subst; left
               | by apply elem_of_cons in Hc as [?|?] ].
Qed.

Lemma unique_candidates (c : ContainerInfo) :
  Set_from (containerGroupCandidates (trim (name_or_id c))) = candidates_for c.
Proof.
  rewrite Set_from_dedup. apply dedup_keep_first_id.
  apply containerGroupCandidates_NoDup.
Qed.

Lemma first_pass_counts (cs : list ContainerInfo)
    (st : gmap string nat * gmap string (list string)) (s : string) :
  default 0 ((foldl first_pass_body st cs).1 !! s)
  = default 0 (st.1 !! s) + frequency cs s.
Proof.
  revert st. induction cs as [|c cs IH]; intros [m b]; simpl.
  - unfold frequency. simpl. lia.
  - rewrite IH. simpl. rewrite unique_candidates.
    rewrite count_candidates_lookup by apply containerGroupCandidates_NoDup.
    unfold frequency. rewrite filter_cons.
    destruct (decide (s ∈ candidates_for c)); simpl; lia.
Qed.

(** The counts held in [candidateCounts] are the frequencies. *)
Lemma candidateCounts_frequency (cs : list ContainerInfo) (s : string) :
  default 0 ((first_pass cs).1 !! s) = frequency cs s.
Proof. unfold first_pass. rewrite first_pass_counts. done. Qed.

Lemma first_pass_byId_other (cs : list ContainerInfo)
    (st : gmap string nat * gmap string (list string)) (i : string) :
  i ∉ map id cs ->
  (foldl first_pass_body st cs).2 !! i = st.2 !! i.
Proof.
  revert st. induction cs as [|c cs IH]; intros [m b] Hi; [done|].
  simpl in *. rewrite IH by (intros H; apply Hi; by right).
  simpl. apply lookup_insert_ne. intros Heq. apply Hi. rewrite Heq. left.
Qed.

Lemma first_pass_byId_fold (cs : list ContainerInfo)
    (st : gmap string nat * gmap string (list string)) (c : ContainerInfo) :
  NoDup (map id cs) -> c ∈ cs ->
  (foldl first_pass_body st cs).2 !! id c = Some (candidates_for c).
Proof.
  intros Hnd. revert st.
  induction cs as [|c0 cs IH]; intros [m b] Hc; [by apply elem_of_nil in Hc|].
  simpl in Hnd. apply NoDup_cons in Hnd as [Hc0 Hnd].
  apply elem_of_cons in Hc as [->|Hc]; simpl.
  - rewrite first_pass_byId_other by done. simpl.
    rewrite lookup_insert_eq. by rewrite unique_candidates.
  - by apply IH.
Qed.

(** With distinct ids, [candidatesById] returns each record its own
    candidates. *)
Lemma candidatesById_own (cs : list ContainerInfo) (c : ContainerInfo) :
  NoDup (map id cs) -> c ∈ cs ->
  candidates_of (first_pass cs).2 c = candidates_for c.
Proof.
  intros Hnd Hc. unfold candidates_of, first_pass.
  by rewrite (first_pass_byId_fold cs _ c Hnd Hc).
Qed.

(** ** Key selection *)

Section Select.

Variable candidateCounts : gmap string nat.

Let cnt (s : string) : nat := default 0 (candidateCounts !! s).

Lemma select_body_skip (b : Best) (x : string) :
  cnt x < 2 -> select_body candidateCounts b x = b.
Proof.
  intros Hx. unfold select_body. fold (cnt x).
  by rewrite (proj2 (Nat.ltb_lt _ _) Hx).
Qed.

Lemma select_body_eligible (b : Best) (x : string) :
  2 <= cnt x ->
  select_body candidateCounts b x
  = if (bestCount b <? cnt x)%nat
       || ((cnt x =? bestCount b)%nat && (bestLen b <? String.length x)%nat)
    then {| bestKey := x; bestCount := cnt x; bestLen := String.length x |}
    else b.
Proof.
  intros Hx. unfold select_body. fold (cnt x).
  by rewrite (proj2 (Nat.ltb_ge _ _) Hx).
Qed.

(** The loop either leaves the initial key in place, no candidate being
    eligible, or holds a candidate that wins among those seen so far. *)
Lemma select_fold (name : string) (l : list string) :
  let b := foldl (select_body candidateCounts)
             {| bestKey := name; bestCount := 1; bestLen := 0 |} l in
  ((forall s, s ∈ l -> cnt s < 2)
   /\ b = {| bestKey := name; bestCount := 1; bestLen := 0 |})
  \/ (bestCount b = cnt (bestKey b)
      /\ bestLen b = String.length (bestKey b)
      /\ wins cnt l (bestKey b)).
Proof.
  induction l as [|x l IH] using rev_ind; cbn zeta.
  - left. split; [|done]. by intros s ?%elem_of_nil.
  - rewrite foldl_app. cbn [foldl fold_left]. cbn zeta in IH.
    destruct (Nat.lt_ge_cases (cnt x) 2) as [Hx|Hx].
    + rewrite select_body_skip by done.
      destruct IH as [[Hl Hb]|(Hc & Hn & l1 & l2 & Hl & Hk & H1 & H2)].
      * left. split; [|exact Hb].
        intros s [?| ->%list_elem_of_singleton]%elem_of_app; auto.
      * right. split; [done|]. split; [done|].
        exists l1, (l2 ++ [x]).
        split; [by rewrite app_comm_cons, app_assoc, <- Hl|].
        split; [done|]. split; [done|].
        intros s [?| ->%list_elem_of_singleton]%elem_of_app; [auto|lia].
    + right. rewrite select_body_eligible by done.
      destruct IH as [[Hl ->]|(Hc & Hn & l1 & l2 & Hl & Hk & H1 & H2)].
      * simpl. rewrite (proj2 (Nat.ltb_lt 1 (cnt x))) by lia. simpl.
        split; [done|]. split; [done|].
        exists l, []. split; [done|]. split; [done|].
        split; [|by intros s ?%elem_of_nil].
        intros s Hs Hs2. specialize (Hl s Hs). lia.
      * set (b := foldl (select_body candidateCounts) _ l) in *.
        destruct ((bestCount b <? cnt x)%nat
                  || (cnt x =? bestCount b)%nat
                     && (bestLen b <? String.length x)%nat) eqn:Hbetter.
        -- simpl. split; [done|]. split; [done|].
           exists l, []. split; [done|]. split; [done|].
           split; [|by intros s ?%elem_of_nil].
           apply orb_prop in Hbetter.
           assert (cnt (bestKey b) < cnt x
                   \/ (cnt (bestKey b) = cnt x
                       /\ String.length (bestKey b) < String.length x))
             as Hb.
           { destruct Hbetter as [H|[H H']%andb_prop].
             - apply Nat.ltb_lt in H. lia.
             - apply Nat.eqb_eq in H. apply Nat.ltb_lt in H'. lia. }
           intros s Hs Hs2. rewrite Hl in Hs.
           apply elem_of_app in Hs as [Hs|Hs].
           ++ specialize (H1 s Hs Hs2). lia.
           ++ apply elem_of_cons in Hs as [->|Hs]; [lia|].
              specialize (H2 s Hs Hs2). lia.
        -- split; [done|]. split; [done|].
           exists l1, (l2 ++ [x]).
           split; [by rewrite app_comm_cons, app_assoc, <- Hl|].
           split; [done|]. split; [done|].
           apply orb_false_elim in Hbetter as [Hlt Hle].
           apply Nat.ltb_ge in Hlt.
           intros s [?| ->%list_elem_of_singleton]%elem_of_app; [auto|].
           intros _. rewrite <- Hc.
           apply andb_false_iff in Hle as [Hne|Hle].
           ++ apply Nat.eqb_neq in Hne. lia.
           ++ apply Nat.ltb_ge in Hle. lia.
Qed.

End Select.

(** ** [Array.prototype.sort] *)

Section Sort.

Context {A : Type} (cmp : A -> A -> Z).

Let le (a b : A) : Prop := (cmp a b <= 0)%Z.

Lemma sort_insert_perm (x : A) (l : list A) : sort_insert cmp x l ≡ₚ x :: l.
Proof.
  induction l as [|y l IH]; simpl; [done|].
  destruct (cmp x y <=? 0)%Z; [done|].
  rewrite IH. apply perm_swap.
Qed.

Lemma Array_sort_perm (l : list A) : Array_sort cmp l ≡ₚ l.
Proof.
  induction l as [|x l IH]; simpl; [done|].
  fold (Array_sort cmp l). by rewrite sort_insert_perm, IH.
Qed.

Lemma Array_sort_elem (l : list A) (x : A) : x ∈ Array_sort cmp l <-> x ∈ l.
Proof. by rewrite Array_sort_perm. Qed.

Lemma Array_sort_length (l : list A) : length (Array_sort cmp l) = length l.
Proof. by rewrite Array_sort_perm. Qed.

Hypothesis le_total : forall a b, le a b \/ le b a.
Hypothesis le_trans : forall a b c, le a b -> le b c -> le a c.

Lemma sort_insert_sorted (x : A) (l : list A) :
  StronglySorted le l -> StronglySorted le (sort_insert cmp x l).
Proof.
  induction 1 as [|y l Hl IH Hy]; simpl.
  - repeat constructor.
  - destruct (cmp x y <=? 0)%Z eqn:Hxy.
    + apply Z.leb_le in Hxy. constructor; [by constructor|].
      constructor; [done|].
      eapply Forall_impl; [exact Hy|]. intros z Hz. by apply le_trans with y.
    + apply Z.leb_gt in Hxy. constructor; [done|].
      rewrite sort_insert_perm. constructor; [|done].
      destruct (le_total x y) as [H|H]; [unfold le in H; lia|done].
Qed.

Lemma Array_sort_sorted (l : list A) : StronglySorted le (Array_sort cmp l).
Proof.
  induction l as [|x l IH]; simpl; [constructor|].
  by apply sort_insert_sorted.
Qed.

End Sort.

(** ** The [groups] map *)

Lemma groups_get_push (G : list (string * list ContainerInfo))
    (k0 : string) (c : ContainerInfo) (k : string) :
  groups_get (groups_push G k0 c) k
  = groups_get G k ++ (if decide (k0 = k) then [c] else []).
Proof.
  induction G as [|[k' items] G IH]; simpl.
  - destruct (String.eqb_spec k0 k), (decide (k0 = k)); done.
  - destruct (String.eqb_spec k' k0) as [->|Hne]; simpl.
    + destruct (String.eqb_spec k0 k) as [->|Hne'].
      * by rewrite decide_True.
      * rewrite decide_False by done. by rewrite app_nil_r.
    + destruct (String.eqb_spec k' k) as [->|Hne'].
      * rewrite decide_False by done. by rewrite app_nil_r.
      * apply IH.
Qed.

Lemma groups_push_keys (G : list (string * list ContainerInfo))
    (k0 : string) (c : ContainerInfo) :
  (groups_push G k0 c).*1 = Set_add k0 (G.*1).
Proof.
  unfold Set_add. induction G as [|[k' items] G IH]; [done|].
  cbn [groups_push].
  destruct (String.eqb_spec k' k0) as [->|Hne]; rewrite !fmap_cons; cbn [fst].
  - rewrite bool_decide_eq_true_2 by left. done.
  - rewrite IH. case_bool_decide as H1; case_bool_decide as H2; try done.
    + exfalso. apply H2. by right.
    + exfalso. apply elem_of_cons in H2 as [?|?]; done.
Qed.

Lemma groups_push_perm (G : list (string * list ContainerInfo))
    (k0 : string) (c : ContainerInfo) :
  concat ((groups_push G k0 c).*2) ≡ₚ c :: concat (G.*2).
Proof.
  induction G as [|[k' items] G IH]; [done|].
  cbn [groups_push].
  destruct (String.eqb_spec k' k0) as [->|Hne];
    rewrite !fmap_cons; cbn [snd concat].
  - rewrite <- app_assoc. simpl. by rewrite <- Permutation_middle.
  - rewrite IH. by rewrite <- Permutation_middle.
Qed.

Lemma groups_push_nonempty (G : list (string * list ContainerInfo))
    (k0 : string) (c : ContainerInfo) :
  Forall (fun e => e.2 <> []) G ->
  Forall (fun e => e.2 <> []) (groups_push G k0 c).
Proof.
  induction 1 as [|[k' items] G Hi HG IH]; simpl.
  - by repeat constructor.
  - destruct (String.eqb_spec k' k0) as [->|Hne]; constructor; try done.
    simpl. by destruct items.
Qed.

Lemma groups_get_elem (G : list (string * list ContainerInfo))
    (k : string) (items : list ContainerInfo) :
  NoDup (G.*1) -> (k, items) ∈ G -> groups_get G k = items.
Proof.
  induction G as [|[k' items'] G IH]; intros Hnd Hin.
  - by apply elem_of_nil in Hin.
  - rewrite fmap_cons in Hnd. cbn [fst groups_get] in *.
    apply NoDup_cons in Hnd as [Hk' Hnd].
    apply elem_of_cons in Hin as [[= <- <-]|Hin].
    + by rewrite String.eqb_refl.
    + destruct (String.eqb_spec k' k) as [->|Hne]; [|by apply IH].
      exfalso. apply Hk'. apply list_elem_of_fmap. by exists (k, items).
Qed.

Lemma groups_get_key (G : list (string * list ContainerInfo)) (k : string) :
  k ∈ G.*1 -> (k, groups_get G k) ∈ G.
Proof.
  induction G as [|[k' items'] G IH]; intros Hin.
  - by apply elem_of_nil in Hin.
  - rewrite fmap_cons in Hin. cbn [fst groups_get] in *.
    destruct (String.eqb_spec k' k) as [->|Hne]; [left|].
    right. apply IH. apply elem_of_cons in Hin as [?|?]; done.
Qed.

Section SecondPass.

Variable candidateCounts : gmap string nat.
Variable candidatesById : gmap string (list string).

Let keyf := select_key candidateCounts candidatesById.
Let run := second_pass candidateCounts candidatesById.

Lemma second_pass_snoc (cs : list ContainerInfo) (c : ContainerInfo) :
  run (cs ++ [c]) = groups_push (run cs) (keyf c) c.
Proof. unfold run, second_pass. by rewrite foldl_app. Qed.

Lemma second_pass_get (cs : list ContainerInfo) (k : string) :
  groups_get (run cs) k = filter (fun c => keyf c = k) cs.
Proof.
  induction cs as [|c cs IH] using rev_ind; [done|].
  rewrite second_pass_snoc, groups_get_push, IH, filter_app.
  by f_equal.
Qed.

Lemma second_pass_keys (cs : list ContainerInfo) :
  (run cs).*1 = dedup_keep_first (keyf <$> cs).
Proof.
  rewrite <- Set_from_dedup. unfold Set_from.
  induction cs as [|c cs IH] using rev_ind; [done|].
  rewrite second_pass_snoc, groups_push_keys, IH, fmap_app, foldl_app. done.
Qed.

Lemma second_pass_perm (cs : list ContainerInfo) :
  concat ((run cs).*2) ≡ₚ cs.
Proof.
  induction cs as [|c cs IH] using rev_ind; [done|].
  rewrite second_pass_snoc, groups_push_perm, IH.
  apply Permutation_cons_append.
Qed.

Lemma second_pass_nonempty (cs : list ContainerInfo) :
  Forall (fun e => e.2 <> []) (run cs).
Proof.
  induction cs as [|c cs IH] using rev_ind; [constructor|].
  rewrite second_pass_snoc. by apply groups_push_nonempty.
Qed.

Lemma second_pass_NoDup (cs : list ContainerInfo) : NoDup ((run cs).*1).
Proof. rewrite second_pass_keys. apply dedup_keep_first_NoDup. Qed.

(** An entry of the map holds, in input order, the records that selected
    its key. *)
Lemma second_pass_entry (cs : list ContainerInfo) (k : string)
    (items : list ContainerInfo) :
  (k, items) ∈ run cs ->
  items = filter (fun c => keyf c = k) cs /\ items <> [].
Proof.
  intros Hin. split.
  - rewrite <- second_pass_get. symmetry.
    by apply groups_get_elem; [apply second_pass_NoDup|].
  - pose proof (second_pass_nonempty cs) as Hne.
    rewrite Forall_forall in Hne. apply (Hne _ Hin).
Qed.

Lemma second_pass_member (cs : list ContainerInfo) (c : ContainerInfo) :
  c ∈ cs ->
  (keyf c, filter (fun c' => keyf c' = keyf c) cs) ∈ run cs.
Proof.
  intros Hc. rewrite <- second_pass_get. apply groups_get_key.
  rewrite second_pass_keys, dedup_keep_first_elem.
  by apply list_elem_of_fmap_2.
Qed.

End SecondPass.

(** ** The two comparators *)

Section Comparators.

Variable lc : string -> string -> Z.
Hypothesis Hlc : Consistent lc.

Lemma lc_flip (a b : string) :
  ((lc a b < 0 <-> 0 < lc b a) /\ (lc a b = 0 <-> lc b a = 0)
   /\ (0 < lc a b <-> lc b a < 0))%Z.
Proof.
  pose proof (lc_antisym lc Hlc a b) as H.
  destruct (Z.sgn_spec (lc a b)) as [[? E1]|[[? E1]|[? E1]]],
           (Z.sgn_spec (lc b a)) as [[? E2]|[[? E2]|[? E2]]];
    rewrite E1, E2 in H; lia.
Qed.

Lemma lc_total (a b : string) : (lc a b <= 0 \/ lc b a <= 0)%Z.
Proof. pose proof (lc_flip a b). lia. Qed.

Lemma lc_lt_le_trans (a b c : string) :
  (lc a b < 0 -> lc b c <= 0 -> lc a c < 0)%Z.
Proof.
  intros Hab Hbc.
  assert (lc a c <= 0)%Z as Hac by (apply (lc_trans lc Hlc a b c); lia).
  destruct (Z.eq_dec (lc a c) 0%Z) as [E|]; [|lia].
  assert (lc c a <= 0)%Z as Hca by (pose proof (lc_flip a c); lia).
  pose proof (lc_trans lc Hlc b c a Hbc Hca). pose proof (lc_flip a b). lia.
Qed.

Lemma lc_le_lt_trans (a b c : string) :
  (lc a b <= 0 -> lc b c < 0 -> lc a c < 0)%Z.
Proof.
  intros Hab Hbc.
  assert (lc a c <= 0)%Z as Hac by (apply (lc_trans lc Hlc a b c); lia).
  destruct (Z.eq_dec (lc a c) 0%Z) as [E|]; [|lia].
  assert (lc c a <= 0)%Z as Hca by (pose proof (lc_flip a c); lia).
  pose proof (lc_trans lc Hlc c a b Hca Hab). pose proof (lc_flip b c). lia.
Qed.

Lemma lc_eq_trans (a b c : string) :
  (lc a b = 0 -> lc b c = 0 -> lc a c = 0)%Z.
Proof.
  intros Hab Hbc.
  assert (lc a c <= 0)%Z by (apply (lc_trans lc Hlc a b c); lia).
  assert (lc c a <= 0)%Z.
  { pose proof (lc_flip a b). pose proof (lc_flip b c).
    apply (lc_trans lc Hlc c b a); lia. }
  pose proof (lc_flip a c). lia.
Qed.

(** Order by name-or-id, then id. *)
Let name_le (a b : ContainerInfo) : Prop :=
  (lc (name_or_id a) (name_or_id b) < 0
   \/ (lc (name_or_id a) (name_or_id b) = 0 /\ lc (id a) (id b) <= 0))%Z.

Lemma name_le_total (a b : ContainerInfo) : name_le a b \/ name_le b a.
Proof.
  unfold name_le.
  pose proof (lc_flip (name_or_id a) (name_or_id b)).
  pose proof (lc_total (id a) (id b)). lia.
Qed.

Lemma name_le_trans (a b c : ContainerInfo) :
  name_le a b -> name_le b c -> name_le a c.
Proof.
  unfold name_le. intros [Hab|[Hab Iab]] [Hbc|[Hbc Ibc]].
  - left. apply lc_lt_le_trans with (name_or_id b); lia.
  - left. apply lc_lt_le_trans with (name_or_id b); lia.
  - left. apply lc_le_lt_trans with (name_or_id b); lia.
  - right. split; [by apply lc_eq_trans with (name_or_id b)|].
    by apply (lc_trans lc Hlc) with (id b).
Qed.

Lemma member_compare_le (a b : ContainerInfo) :
  (member_compare lc a b <= 0)%Z
  <-> (is_running a = true /\ is_running b = false)
      \/ (is_running a = is_running b /\ name_le a b).
Proof.
  unfold member_compare, name_le.
  destruct (is_running a), (is_running b); simpl;
    try (split; [intros ?|intros [[? ?]|[? ?]]]; try done; try lia;
         by auto);
    destruct (Z.eqb_spec (lc (name_or_id a) (name_or_id b)) 0%Z) as [E|E];
    simpl; try rewrite E;
    (split; [intros ?; right; split; [done|lia]
            |intros [[? ?]|[_ ?]]; [done|lia]]).
Qed.

Lemma member_compare_before (a b : ContainerInfo) :
  (member_compare lc a b <= 0)%Z <-> member_before lc a b.
Proof.
  rewrite member_compare_le. unfold member_before, name_le.
  destruct (is_running a), (is_running b); split.
  all: try (intros [[? ?]|[? ?]]; try discriminate;
            split; intros; try done; lia).
  all: intros [H1 H2].
  all: first [ by specialize (H1 eq_refl)
             | by left
             | right; split; [done|]; specialize (H2 eq_refl); lia ].
Qed.

Lemma member_compare_total (a b : ContainerInfo) :
  (member_compare lc a b <= 0)%Z \/ (member_compare lc b a <= 0)%Z.
Proof.
  rewrite !member_compare_le.
  destruct (name_le_total a b); destruct (is_running a), (is_running b);
    auto.
Qed.

Lemma member_compare_trans (a b c : ContainerInfo) :
  (member_compare lc a b <= 0)%Z -> (member_compare lc b c <= 0)%Z ->
  (member_compare lc a c <= 0)%Z.
Proof.
  rewrite !member_compare_le.
  intros [[Ha Hb]|[Hab Nab]] [[Hb' Hc]|[Hbc Nbc]].
  - congruence.
  - left. split; congruence.
  - left. split; congruence.
  - right. split; [congruence|]. by apply name_le_trans with b.
Qed.

(** Order by descending size, then key. *)
Let size_le (a b : ContainerGroup) : Prop :=
  length (containers b) < length (containers a)
  \/ (length (containers a) = length (containers b)
      /\ (lc (key a) (key b) <= 0)%Z).

Lemma group_compare_le (a b : ContainerGroup) :
  (group_compare lc a b <= 0)%Z
  <-> (0 < runningCount a /\ runningCount b = 0)
      \/ ((0 < runningCount a <-> 0 < runningCount b) /\ size_le a b).
Proof.
  unfold group_compare, size_le.
  destruct (Nat.ltb_spec 0 (runningCount a)) as [Ha|Ha],
           (Nat.ltb_spec 0 (runningCount b)) as [Hb|Hb]; simpl;
    try (split; [intros ?; try lia; left; lia
                |intros [[? ?]|[? ?]]; lia]);
    destruct (Nat.eqb_spec (length (containers a)) (length (containers b)))
      as [E|E]; simpl;
    (split; [intros ?; right; split; [lia|lia]
            |intros [[? ?]|[_ ?]]; lia]).
Qed.

Lemma group_compare_total (a b : ContainerGroup) :
  (group_compare lc a b <= 0)%Z \/ (group_compare lc b a <= 0)%Z.
Proof.
  rewrite !group_compare_le. unfold size_le.
  pose proof (lc_total (key a) (key b)). lia.
Qed.

Lemma group_compare_trans (a b c : ContainerGroup) :
  (group_compare lc a b <= 0)%Z -> (group_compare lc b c <= 0)%Z ->
  (group_compare lc a c <= 0)%Z.
Proof.
  rewrite !group_compare_le. unfold size_le.
  pose proof (lc_trans lc Hlc (key a) (key b) (key c)). lia.
Qed.

End Comparators.

(** ** The instance of [localeCompare] used in the scenarios *)

Lemma codeUnitCompare_le (a b : string) :
  (codeUnitCompare a b <= 0)%Z <-> String.compare a b <> Gt.
Proof. unfold codeUnitCompare. destruct (String.compare a b); split; done. Qed.

Lemma codeUnitCompare_consistent : Consistent codeUnitCompare.
Proof.
  split.
  - intros a b. unfold codeUnitCompare. rewrite (String.compare_antisym a b).
    by destruct (String.compare b a).
  - intros a b c. rewrite !codeUnitCompare_le. intros Hab Hbc.
    destruct (String.compare a b) eqn:Eab; [| |done].
    + apply String.compare_eq_iff in Eab as ->. done.
    + destruct (String.compare b c) eqn:Ebc; [| |done].
      * apply String.compare_eq_iff in Ebc as <-. by rewrite Eab.
      * apply String_as_OT.cmp_lt in Eab, Ebc.
        pose proof (String_as_OT.lt_trans _ _ _ Eab Ebc) as Hac.
        apply String_as_OT.cmp_lt in Hac.
        unfold String_as_OT.cmp in Hac. by rewrite Hac.
Qed.

(** ** The output *)

Lemma groupContainersByNamePrefix_eq (lc : string -> string -> Z)
    (cs : list ContainerInfo) :
  groupContainersByNamePrefix lc cs
  = Array_sort (group_compare lc)
      (map (make_group lc) (second_pass (first_pass cs).1 (first_pass cs).2 cs)).
Proof. unfold groupContainersByNamePrefix. by destruct (first_pass cs). Qed.

Lemma output_elem (lc : string -> string -> Z) (cs : list ContainerInfo)
    (g : ContainerGroup) :
  g ∈ groupContainersByNamePrefix lc cs
  <-> exists e, e ∈ second_pass (first_pass cs).1 (first_pass cs).2 cs
                /\ g = make_group lc e.
Proof.
  rewrite groupContainersByNamePrefix_eq, Array_sort_elem.
  rewrite list_elem_of_In, in_map_iff.
  split; intros (e & H1 & H2); exists e; rewrite ?list_elem_of_In in *; auto.
Qed.

Lemma filter_length_perm {A} (f : A -> bool) (l l' : list A) :
  l ≡ₚ l' -> length (List.filter f l) = length (List.filter f l').
Proof.
  induction 1 as [|x l l' _ IH|x y l|l l' l'' _ IH1 _ IH2]; simpl.
  - done.
  - destruct (f x); simpl; by rewrite IH.
  - destruct (f x), (f y); done.
  - by rewrite IH1.
Qed.

Lemma filter_length_split {A} (f : A -> bool) (l : list A) :
  length (List.filter f l) + length (List.filter (fun x => negb (f x)) l)
  = length l.
Proof.
  induction l as [|x l IH]; simpl; [done|].
  destruct (f x); simpl; lia.
Qed.

Lemma filter_length_existsb {A} (f : A -> bool) (l : list A) :
  0 < length (List.filter f l) <-> existsb f l = true.
Proof.
  induction l as [|x l IH]; simpl; [split; [lia|done]|].
  destruct (f x); simpl; [split; [done|lia]|done].
Qed.

(** The aggregates of a group built from map entry [e]. *)
Lemma make_group_counts (lc : string -> string -> Z)
    (e : string * list ContainerInfo) :
  let g := make_group lc e in
  runningCount g = length (List.filter is_running (containers g))
  /\ stoppedCount g
     = length (List.filter (fun c => negb (is_running c)) (containers g))
  /\ runningCount g + stoppedCount g = length (containers g).
Proof.
  destruct e as [k items]. simpl.
  rewrite !(filter_length_perm _ _ _ (Array_sort_perm (member_compare lc) items)).
  rewrite Array_sort_length.
  pose proof (filter_length_split is_running items). lia.
Qed.

Lemma StronglySorted_impl_elem {A} (R R' : A -> A -> Prop) (l : list A) :
  (forall a b, a ∈ l -> b ∈ l -> R a b -> R' a b) ->
  StronglySorted R l -> StronglySorted R' l.
Proof.
  intros HR Hl. induction Hl as [|x l Hl IH Hx]; constructor.
  - apply IH. intros a b Ha Hb. apply HR; by right.
  - rewrite Forall_forall in *. intros y Hy.
    apply HR; [left|by right|by apply Hx].
Qed.

(** ** Partition *)

(** The empty snapshot gives no group. *)
Example empty_snapshot (lc : string -> string -> Z) :
  groupContainersByNamePrefix lc [] = [].
Proof. reflexivity. Qed.

Lemma output_members_perm (lc : string -> string -> Z)
    (cs : list ContainerInfo) :
  concat (map containers (groupContainersByNamePrefix lc cs)) ≡ₚ cs.
Proof.
  rewrite groupContainersByNamePrefix_eq, <- flat_map_concat_map.
  rewrite (Array_sort_perm (group_compare lc)).
  etransitivity;
    [|apply (second_pass_perm (first_pass cs).1 (first_pass cs).2 cs)].
  generalize (second_pass (first_pass cs).1 (first_pass cs).2 cs) as G.
  induction G as [|[k items] G IH]; [done|].
  rewrite fmap_cons. simpl. rewrite IH.
  by rewrite (Array_sort_perm (member_compare lc)).
Qed.

Lemma output_keys_NoDup (lc : string -> string -> Z)
    (cs : list ContainerInfo) :
  NoDup (map key (groupContainersByNamePrefix lc cs)).
Proof.
  rewrite groupContainersByNamePrefix_eq.
  rewrite (Permutation_map key (Array_sort_perm (group_compare lc) _)).
  rewrite map_map.
  pose proof (second_pass_NoDup (first_pass cs).1 (first_pass cs).2 cs) as H.
  revert H. generalize (second_pass (first_pass cs).1 (first_pass cs).2 cs) as G.
  intros G. replace (map (fun x => key (make_group lc x)) G) with (G.*1); [done|].
  induction G as [|[k items] G IH]; [done|]. rewrite fmap_cons. simpl. by f_equal.
Qed.

(** C3: the member lists of the output groups, taken together, are the input
    records, each occurrence once; the keys of the groups are pairwise
    distinct, so no record sits in two groups; and no group is empty. *)
Theorem C3_partition (lc : string -> string -> Z) (cs : list ContainerInfo) :
  concat (map containers (groupContainersByNamePrefix lc cs)) ≡ₚ cs
  /\ NoDup (map key (groupContainersByNamePrefix lc cs))
  /\ Forall (fun g => containers g <> []) (groupContainersByNamePrefix lc cs).
Proof.
  split; [apply output_members_perm|]. split; [apply output_keys_NoDup|].
  apply Forall_forall. intros g (e & He & ->)%output_elem.
  destruct e as [k items].
  apply second_pass_entry in He as [_ Hne]. simpl.
  intros Hnil. apply Hne.
  apply Permutation_nil. rewrite <- Hnil.
  apply Array_sort_perm.
Qed.

(** ** Aggregates *)

(** C8: in every output group, [runningCount] is the number of members whose
    state is "running", [stoppedCount] the number of the other members, and
    the two add up to the number of members. *)
Theorem C8_counts (lc : string -> string -> Z) (cs : list ContainerInfo) :
  Forall (fun g =>
            runningCount g = length (List.filter is_running (containers g))
            /\ stoppedCount g
               = length (List.filter (fun c => negb (is_running c))
                           (containers g))
            /\ runningCount g + stoppedCount g = length (containers g))
         (groupContainersByNamePrefix lc cs).
Proof.
  apply Forall_forall. intros g (e & _ & ->)%output_elem.
  apply make_group_counts.
Qed.

(** ** Order *)

Lemma members_sorted (lc : string -> string -> Z) (cs : list ContainerInfo) :
  Consistent lc ->
  Forall (fun g => StronglySorted (member_before lc) (containers g))
         (groupContainersByNamePrefix lc cs).
Proof.
  intros Hlc. apply Forall_forall. intros g (e & _ & ->)%output_elem.
  destruct e as [k items]. simpl.
  apply StronglySorted_impl_elem
    with (R := fun a b => (member_compare lc a b <= 0)%Z).
  - intros a b _ _. by apply member_compare_before.
  - apply Array_sort_sorted.
    + by apply member_compare_total.
    + by apply member_compare_trans.
Qed.

Lemma compare_lt_trans (a b c : string) :
  String.compare a b = Lt -> String.compare b c = Lt ->
  String.compare a c = Lt.
Proof.
  intros Eab Ebc. apply String_as_OT.cmp_lt in Eab, Ebc.
  pose proof (String_as_OT.lt_trans _ _ _ Eab Ebc) as Hac.
  by apply String_as_OT.cmp_lt in Hac.
Qed.

Lemma collationCompare_le (a b : string) :
  (collationCompare a b <= 0)%Z
  <-> String.compare (toLowerCase a) (toLowerCase b) = Lt
      \/ (String.compare (toLowerCase a) (toLowerCase b) = Eq
          /\ (codeUnitCompare b a <= 0)%Z).
Proof.
  unfold collationCompare.
  destruct (String.compare (toLowerCase a) (toLowerCase b)).
  - split; [by right|by intros [?|[_ ?]]].
  - split; [by left|done].
  - split; [done|by intros [?|[? _]]].
Qed.

Lemma collationCompare_consistent : Consistent collationCompare.
Proof.
  split.
  - intros a b. unfold collationCompare.
    rewrite (String.compare_antisym (toLowerCase a) (toLowerCase b)).
    destruct (String.compare (toLowerCase b) (toLowerCase a)); simpl;
      [|done|done].
    pose proof (lc_antisym _ codeUnitCompare_consistent a b). lia.
  - intros a b c. rewrite !collationCompare_le.
    intros [Hab|[Hab Iab]] [Hbc|[Hbc Ibc]].
    + left. by apply compare_lt_trans with (toLowerCase b).
    + left. apply String.compare_eq_iff in Hbc. by rewrite <- Hbc.
    + left. apply String.compare_eq_iff in Hab. by rewrite Hab.
    + right. split.
      * apply String.compare_eq_iff in Hbc. by rewrite <- Hbc.
      * by apply (lc_trans _ codeUnitCompare_consistent c b a).
Qed.

(** C4 as stated fails: the members of a group are not in lexicographic
    order of their names.  With a collation for [localeCompare], three
    running records app-b, app-C, app-a form the group "app" with members
    app-a, app-b, app-C: app-b stands before app-C, which precedes it in
    lexicographic order. *)
Theorem C4_counterexample :
  groupContainersByNamePrefix collationCompare [app_b; app_C; app_a]
  = [ {| key := "app"; containers := [app_a; app_b; app_C];
         runningCount := 3; stoppedCount := 0 |} ]
  /\ String.compare (name_or_id app_C) (name_or_id app_b) = Lt
  /\ String.compare (name_or_id app_C) (name_or_id app_a) = Lt.
Proof. split; [vm_compute; reflexivity|]. split; reflexivity. Qed.

(** C4: when [localeCompare] is a consistent comparator, every member list
    is ordered running first, then by [localeCompare] on name-or-id, then by
    [localeCompare] on id; and scenario B yields the single group "db" with
    members db, db-replica-2, db-replica-1, whenever [localeCompare] puts
    "db" before "db-replica-2". *)
Theorem C4_member_order :
  (forall lc cs,
      Consistent lc ->
      Forall (fun g => StronglySorted (member_before lc) (containers g))
             (groupContainersByNamePrefix lc cs))
  /\ (forall lc,
        (lc "db" "db-replica-2" < 0)%Z ->
        groupContainersByNamePrefix lc scenario_B
        = [ {| key := "db";
               containers := [db; db_replica_2; db_replica_1];
               runningCount := 2; stoppedCount := 1 |} ]).
Proof.
  split; [intros lc cs Hlc; by apply members_sorted|].
  intros lc Hlt. rewrite groupContainersByNamePrefix_eq.
  assert (second_pass (first_pass scenario_B).1 (first_pass scenario_B).2
                      scenario_B
          = [("db", scenario_B)]) as -> by (vm_compute; reflexivity).
  cbn [map Array_sort foldr sort_insert make_group scenario_B].
  unfold member_compare. cbn.
  destruct (Z.eqb_spec (lc "db" "db-replica-2") 0%Z) as [E|_]; [lia|].
  assert ((lc "db" "db-replica-2" <=? 0)%Z = true) as Hle
    by (apply Z.leb_le; lia).
  cbn. rewrite Hle. reflexivity.
Qed.

Lemma C4_member_order_witness :
  Consistent collationCompare
  /\ (collationCompare "db" "db-replica-2" < 0)%Z
  /\ Forall (fun g => StronglySorted (member_before collationCompare)
                        (containers g))
            (groupContainersByNamePrefix collationCompare
               [app_b; app_C; app_a])
  /\ map key (groupContainersByNamePrefix collationCompare scenario_B)
     = ["db"].
Proof.
  assert (collationCompare "db" "db-replica-2" < 0)%Z as Hlt by reflexivity.
  split; [exact collationCompare_consistent|]. split; [exact Hlt|]. split.
  - exact (proj1 C4_member_order collationCompare [app_b; app_C; app_a]
             collationCompare_consistent).
  - by rewrite (proj2 C4_member_order collationCompare Hlt).
Defined.

Lemma groups_sorted (lc : string -> string -> Z) (cs : list ContainerInfo) :
  Consistent lc ->
  StronglySorted (group_before lc) (groupContainersByNamePrefix lc cs).
Proof.
  intros Hlc.
  apply StronglySorted_impl_elem
    with (R := fun a b => (group_compare lc a b <= 0)%Z).
  - intros a b (ea & _ & ->)%output_elem (eb & _ & ->)%output_elem.
    rewrite (group_compare_le lc).
    destruct (make_group_counts lc ea) as (Ha & _ & _).
    destruct (make_group_counts lc eb) as (Hb & _ & _).
    cbn zeta in Ha, Hb. unfold group_before, has_running.
    pose proof (filter_length_existsb is_running
                  (containers (make_group lc ea))) as Ea.
    pose proof (filter_length_existsb is_running
                  (containers (make_group lc eb))) as Eb.
    rewrite <- Ha in Ea. rewrite <- Hb in Eb.
    destruct (existsb is_running (containers (make_group lc ea))),
             (existsb is_running (containers (make_group lc eb)));
      intros [[? ?]|[? ?]]; split; intros; try done; try lia.
    all: exfalso; intuition (try discriminate; try lia).
  - rewrite groupContainersByNamePrefix_eq. apply Array_sort_sorted.
    + by apply group_compare_total.
    + by apply group_compare_trans.
Qed.

(** C5 as stated fails: groups of equal size are not in lexicographic order
    of their keys.  With a collation for [localeCompare], two running records
    Beta and alpha give the singleton group "alpha" before the singleton
    group "Beta", which precedes it in lexicographic order. *)
Theorem C5_counterexample :
  groupContainersByNamePrefix collationCompare [svc_Beta; svc_alpha]
  = [ {| key := "alpha"; containers := [svc_alpha];
         runningCount := 1; stoppedCount := 0 |};
      {| key := "Beta"; containers := [svc_Beta];
         runningCount := 1; stoppedCount := 0 |} ]
  /\ String.compare "Beta" "alpha" = Lt.
Proof. split; [vm_compute; reflexivity|reflexivity]. Qed.

(** C5: when [localeCompare] is a consistent comparator, groups with a
    running member come before groups with none, then larger groups first,
    then groups of equal size by [localeCompare] on the key; and scenario A
    yields the group "web" with web-1, web-2 followed by the singleton
    "api-1", whenever [localeCompare] puts "web-1" before "web-2". *)
Theorem C5_group_order :
  (forall lc cs,
      Consistent lc ->
      StronglySorted (group_before lc) (groupContainersByNamePrefix lc cs))
  /\ (forall lc,
        (lc "web-1" "web-2" < 0)%Z ->
        groupContainersByNamePrefix lc scenario_A
        = [ {| key := "web"; containers := [web_1; web_2];
               runningCount := 2; stoppedCount := 0 |};
            {| key := "api-1"; containers := [api_1];
               runningCount := 1; stoppedCount := 0 |} ]).
Proof.
  split; [intros lc cs Hlc; by apply groups_sorted|].
  intros lc Hlt. rewrite groupContainersByNamePrefix_eq.
  assert (second_pass (first_pass scenario_A).1 (first_pass scenario_A).2
                      scenario_A
          = [("web", [web_1; web_2]); ("api-1", [api_1])]) as ->
    by (vm_compute; reflexivity).
  cbn [map Array_sort foldr sort_insert make_group].
  unfold member_compare. cbn.
  destruct (Z.eqb_spec (lc "web-1" "web-2") 0%Z) as [E|_]; [lia|].
  assert ((lc "web-1" "web-2" <=? 0)%Z = true) as Hle by (apply Z.leb_le; lia).
  cbn. rewrite Hle. reflexivity.
Qed.

Lemma C5_group_order_witness :
  Consistent collationCompare
  /\ (collationCompare "web-1" "web-2" < 0)%Z
  /\ StronglySorted (group_before collationCompare)
       (groupContainersByNamePrefix collationCompare [svc_Beta; svc_alpha])
  /\ map key (groupContainersByNamePrefix collationCompare scenario_A)
     = ["web"; "api-1"].
Proof.
  assert (collationCompare "web-1" "web-2" < 0)%Z as Hlt by reflexivity.
  split; [exact collationCompare_consistent|]. split; [exact Hlt|]. split.
  - exact (proj1 C5_group_order collationCompare [svc_Beta; svc_alpha]
             collationCompare_consistent).
  - by rewrite (proj2 C5_group_order collationCompare Hlt).
Defined.

(** ** The key of a record *)

Lemma wins_ext (f g : string -> nat) (l : list string) (k : string) :
  (forall s, f s = g s) -> wins f l k -> wins g l k.
Proof.
  intros Hfg (l1 & l2 & Hl & Hk & H1 & H2).
  exists l1, l2. split; [done|]. rewrite <- !Hfg. split; [done|].
  split; intros s Hs; rewrite <- !Hfg; auto.
Qed.

Lemma wins_elem (f : string -> nat) (l : list string) (k : string) :
  wins f l k -> k ∈ l /\ 2 <= f k.
Proof.
  intros (l1 & l2 & -> & Hk & _). split; [|done].
  apply elem_of_app. right. left.
Qed.

Lemma candidates_trim (n : string) :
  containerGroupCandidates (trim n) = containerGroupCandidates n.
Proof. by rewrite !containerGroupCandidates_spec, trim_idemp. Qed.

Section KeyOfRecord.

Variable cs : list ContainerInfo.
Hypothesis ids_distinct : NoDup (map id cs).

Let keyf := select_key (first_pass cs).1 (first_pass cs).2.

(** The key of a record of the snapshot is its trimmed name-or-id when no
    candidate of its own is eligible, and the winning candidate otherwise. *)
Lemma select_key_spec (c : ContainerInfo) :
  c ∈ cs ->
  ((forall s, s ∈ candidates_for c -> frequency cs s < 2)
   /\ keyf c = trim (name_or_id c))
  \/ wins (frequency cs) (candidates_for c) (keyf c).
Proof.
  intros Hc. unfold keyf, select_key.
  rewrite (candidatesById_own cs c ids_distinct Hc).
  destruct (select_fold (first_pass cs).1 (trim (name_or_id c))
              (candidates_for c)) as [[Hno Hb]|(_ & _ & Hw)].
  - left. split.
    + intros s Hs. rewrite <- candidateCounts_frequency. by apply Hno.
    + by rewrite Hb.
  - right. eapply wins_ext; [|exact Hw].
    intros s. apply candidateCounts_frequency.
Qed.

Lemma select_key_eligible (c : ContainerInfo) :
  c ∈ cs ->
  (exists s, s ∈ candidates_for c /\ 2 <= frequency cs s) ->
  wins (frequency cs) (candidates_for c) (keyf c).
Proof.
  intros Hc (s & Hs & Hs2).
  destruct (select_key_spec c Hc) as [[Hno _]|Hw]; [|done].
  specialize (Hno s Hs). lia.
Qed.

Lemma select_key_fallback (c : ContainerInfo) :
  c ∈ cs ->
  (forall s, s ∈ candidates_for c -> frequency cs s < 2) ->
  keyf c = trim (name_or_id c).
Proof.
  intros Hc Hno.
  destruct (select_key_spec c Hc) as [[_ Hk]|Hw]; [done|].
  apply wins_elem in Hw as [Hin Hk]. specialize (Hno _ Hin). lia.
Qed.

(** A non-empty key is a candidate of every record that selected it. *)
Lemma select_key_candidate (c : ContainerInfo) :
  c ∈ cs -> keyf c <> "" -> keyf c ∈ candidates_for c.
Proof.
  intros Hc Hne.
  destruct (select_key_spec c Hc) as [[_ Hk]|Hw].
  - rewrite Hk in *. by apply candidates_for_self.
  - by apply wins_elem in Hw as [Hin _].
Qed.

Lemma select_key_empty (c : ContainerInfo) :
  c ∈ cs -> keyf c = "" <-> trim (name_or_id c) = "".
Proof.
  intros Hc. split.
  - intros Hk. destruct (select_key_spec c Hc) as [[_ Hk']|Hw].
    + by rewrite <- Hk'.
    + apply wins_elem in Hw as [Hin _].
      by apply candidates_nonempty in Hin.
  - intros Ht. rewrite select_key_fallback; [done..|].
    rewrite (candidates_for_empty c Ht). by intros s ?%elem_of_nil.
Qed.

Lemma filter_length_le_elem {A} (P Q : A -> Prop)
    `{!forall x, Decision (P x)} `{!forall x, Decision (Q x)} (l : list A) :
  (forall x, x ∈ l -> P x -> Q x) ->
  length (filter P l) <= length (filter Q l).
Proof.
  induction l as [|x l IH]; intros HPQ; [done|].
  rewrite !filter_cons.
  assert (length (filter P l) <= length (filter Q l)) as Hle.
  { apply IH. intros y Hy. apply HPQ. by right. }
  destruct (decide (P x)) as [HP|HP].
  - rewrite decide_True by (apply HPQ; [left|done]). simpl. lia.
  - destruct (decide (Q x)); simpl; lia.
Qed.

(** A record without eligible candidate and with a non-empty key is alone
    under that key. *)
Lemma fallback_alone (c : ContainerInfo) :
  c ∈ cs ->
  (forall s, s ∈ candidates_for c -> frequency cs s < 2) ->
  trim (name_or_id c) <> "" ->
  filter (fun c' => keyf c' = keyf c) cs = [c].
Proof.
  intros Hc Hno Hne.
  pose proof (select_key_fallback c Hc Hno) as Hk.
  assert (length (filter (fun c' => keyf c' = keyf c) cs) <= 1) as Hlen.
  { assert (frequency cs (keyf c) < 2) as Hf.
    { apply Hno. rewrite Hk. by apply candidates_for_self. }
    unfold frequency in Hf.
    assert (length (filter (fun c' => keyf c' = keyf c) cs)
            <= length (filter (fun r => keyf c ∈ candidates_for r) cs))
      as Hle; [|lia].
    apply filter_length_le_elem.
    intros c' Hc' Hkc'. rewrite <- Hkc'.
    apply select_key_candidate; [done|]. by rewrite Hkc', Hk. }
  assert (c ∈ filter (fun c' => keyf c' = keyf c) cs) as Hin
    by (by apply list_elem_of_filter).
  destruct (filter (fun c' => keyf c' = keyf c) cs) as [|x [|y l]].
  - by apply elem_of_nil in Hin.
  - by apply list_elem_of_singleton in Hin as ->.
  - simpl in Hlen. lia.
Qed.

End KeyOfRecord.

(** The group in which a record of the snapshot is placed. *)
Lemma group_of_record (lc : string -> string -> Z) (cs : list ContainerInfo)
    (c : ContainerInfo) :
  c ∈ cs ->
  let k := select_key (first_pass cs).1 (first_pass cs).2 c in
  let items := filter (fun c' => select_key (first_pass cs).1
                                   (first_pass cs).2 c' = k) cs in
  make_group lc (k, items) ∈ groupContainersByNamePrefix lc cs
  /\ c ∈ containers (make_group lc (k, items)).
Proof.
  intros Hc. cbn zeta. split.
  - apply output_elem. eexists. split; [|done].
    by apply second_pass_member.
  - simpl. apply Array_sort_elem. by apply list_elem_of_filter.
Qed.

(** C1 as stated fails: two records whose names are blank have no candidate
    at all, so none is eligible and each is keyed by its trimmed name-or-id,
    the empty string; yet they form one group of two, not two singletons. *)
Lemma C1_counterexample :
  candidates_for blank_a = [] /\ candidates_for blank_b = []
  /\ trim (name_or_id blank_a) = "" /\ trim (name_or_id blank_b) = ""
  /\ groupContainersByNamePrefix codeUnitCompare [blank_a; blank_b]
     = [ {| key := ""; containers := [blank_a; blank_b];
            runningCount := 2; stoppedCount := 0 |} ].
Proof. vm_compute. repeat split; reflexivity. Qed.

(** Why ids must be distinct: [candidatesById] is keyed by id, so of two
    records with the same id the first is keyed from the candidates of the
    second. *)
Example repeated_id_key :
  let cs := [twin_1; twin_2; twin_3] in
  select_key (first_pass cs).1 (first_pass cs).2 twin_1 = "db"
  /\ candidates_for twin_1 = ["web-1"; "web"].
Proof. vm_compute. split; reflexivity. Qed.

(** C1, amended: in a snapshot with pairwise distinct ids, every record lies
    in a group whose key is chosen from the record's own candidates and the
    frequencies: if some candidate occurs in the candidate sets of two or more
    records the key is the eligible candidate with the highest count, then
    the longest, then the first generated; otherwise the key is the trimmed
    name-or-id, and if that key is not empty the group is the record alone. *)
Theorem C1_key_selection (lc : string -> string -> Z)
    (cs : list ContainerInfo) (c : ContainerInfo) :
  NoDup (map id cs) -> c ∈ cs ->
  exists g,
    g ∈ groupContainersByNamePrefix lc cs
    /\ c ∈ containers g
    /\ ((exists s, s ∈ candidates_for c /\ 2 <= frequency cs s) ->
        wins (frequency cs) (candidates_for c) (key g))
    /\ ((forall s, s ∈ candidates_for c -> frequency cs s < 2) ->
        key g = trim (name_or_id c)
        /\ (key g <> "" -> containers g = [c])).
Proof.
  intros Hnd Hc.
  destruct (group_of_record lc cs c Hc) as [Hg Hin].
  eexists. split; [exact Hg|]. split; [exact Hin|]. split.
  - intros He. simpl. by apply select_key_eligible.
  - intros Hno. simpl. split; [by apply select_key_fallback|].
    intros Hne. rewrite fallback_alone; try done.
    by rewrite <- (select_key_fallback cs Hnd c Hc Hno).
Qed.

Lemma C1_key_selection_witness :
  NoDup (map id scenario_A) /\ web_2 ∈ scenario_A
  /\ exists g,
       g ∈ groupContainersByNamePrefix codeUnitCompare scenario_A
       /\ web_2 ∈ containers g
       /\ ((exists s, s ∈ candidates_for web_2 /\ 2 <= frequency scenario_A s) ->
           wins (frequency scenario_A) (candidates_for web_2) (key g))
       /\ ((forall s, s ∈ candidates_for web_2 -> frequency scenario_A s < 2) ->
           key g = trim (name_or_id web_2)
           /\ (key g <> "" -> containers g = [web_2])).
Proof.
  assert (NoDup (map id scenario_A)) as Hnd
    by (apply (bool_decide_unpack _); vm_compute; exact I).
  assert (web_2 ∈ scenario_A) as Hin by (right; left).
  split; [exact Hnd|]. split; [exact Hin|].
  exact (C1_key_selection codeUnitCompare scenario_A web_2 Hnd Hin).
Defined.

(** ** Records without a name *)

Lemma name_or_id_empty_name (c : ContainerInfo) :
  name c = "" -> name_or_id c = id c.
Proof. unfold name_or_id. by intros ->. Qed.

(** C6 as stated fails: a name made of one space trims to the empty string,
    but it is the name, not the id, that is used: the record has no candidate
    and its key is the empty string; and with an empty name the key is the
    trimmed id, which differs from an id that carries a leading space. *)
Lemma C6_counterexample :
  (trim (name blank_c1) = ""
   /\ candidates_of (first_pass [blank_c1]).2 blank_c1 = []
   /\ containerGroupCandidates (id blank_c1) = ["c1"]
   /\ groupContainersByNamePrefix codeUnitCompare [blank_c1]
      = [ {| key := ""; containers := [blank_c1];
             runningCount := 1; stoppedCount := 0 |} ])
  /\ (trim (name padded_c1) = ""
      /\ id padded_c1 = " c1"
      /\ groupContainersByNamePrefix codeUnitCompare [padded_c1]
         = [ {| key := "c1"; containers := [padded_c1];
                runningCount := 1; stoppedCount := 0 |} ]).
Proof. vm_compute. repeat split; reflexivity. Qed.

Lemma name_or_id_nonempty_name (c : ContainerInfo) :
  name c <> "" -> name_or_id c = name c.
Proof. unfold name_or_id. intros H%is_empty_false. by rewrite H. Qed.

(** C6, amended: in a snapshot with pairwise distinct ids, a record whose
    name is the empty string has the candidates generated from its id, and
    when none of them is eligible it lies in the group keyed by its trimmed
    id; a record whose name is not empty but trims to the empty string has no
    candidate and lies in the group keyed by the empty string; a single
    record with empty name and id "c1" gives the singleton group keyed
    "c1". *)
Theorem C6_empty_name_uses_id :
  (forall lc cs c,
      NoDup (map id cs) -> c ∈ cs -> name c = "" ->
      candidates_of (first_pass cs).2 c = containerGroupCandidates (id c)
      /\ ((forall s, s ∈ containerGroupCandidates (id c) ->
                     frequency cs s < 2) ->
          exists g, g ∈ groupContainersByNamePrefix lc cs
                    /\ c ∈ containers g
                    /\ key g = trim (id c)))
  /\ (forall lc cs c,
        NoDup (map id cs) -> c ∈ cs -> name c <> "" -> trim (name c) = "" ->
        candidates_of (first_pass cs).2 c = []
        /\ exists g, g ∈ groupContainersByNamePrefix lc cs
                     /\ c ∈ containers g
                     /\ key g = "")
  /\ (forall lc c,
        name c = "" -> id c = "c1" ->
        groupContainersByNamePrefix lc [c]
        = [ {| key := "c1"; containers := [c];
               runningCount := if is_running c then 1 else 0;
               stoppedCount := if is_running c then 0 else 1 |} ]).
Proof.
  split; [|split].
  - intros lc cs c Hnd Hc Hname.
    assert (candidates_for c = containerGroupCandidates (id c)) as Hcands.
    { unfold candidates_for.
      by rewrite (name_or_id_empty_name c Hname), candidates_trim. }
    split; [by rewrite candidatesById_own|].
    intros Hno. rewrite <- Hcands in Hno.
    destruct (group_of_record lc cs c Hc) as [Hg Hin].
    eexists. split; [exact Hg|]. split; [exact Hin|]. simpl.
    rewrite (select_key_fallback cs Hnd c Hc Hno).
    by rewrite (name_or_id_empty_name c Hname).
  - intros lc cs c Hnd Hc Hname Htrim.
    assert (trim (name_or_id c) = "") as Ht
      by (by rewrite (name_or_id_nonempty_name c Hname)).
    split.
    + rewrite candidatesById_own by done. by apply candidates_for_empty.
    + destruct (group_of_record lc cs c Hc) as [Hg Hin].
      eexists. split; [exact Hg|]. split; [exact Hin|]. simpl.
      by apply select_key_empty.
  - intros lc [i n im st sta po]. simpl. intros -> ->.
    unfold groupContainersByNamePrefix, is_running. simpl.
    unfold make_group, is_running. simpl.
    by destruct (String.eqb st "running").
Qed.

Lemma C6_empty_name_uses_id_witness :
  let c := record "c1" "" "running" in
  (NoDup (map id [c]) /\ c ∈ [c] /\ name c = ""
   /\ candidates_of (first_pass [c]).2 c = containerGroupCandidates (id c))
  /\ (NoDup (map id [blank_c1]) /\ blank_c1 ∈ [blank_c1]
      /\ name blank_c1 <> "" /\ trim (name blank_c1) = ""
      /\ candidates_of (first_pass [blank_c1]).2 blank_c1 = [])
  /\ (id c = "c1"
      /\ map key (groupContainersByNamePrefix codeUnitCompare [c]) = ["c1"]).
Proof.
  cbn zeta.
  assert (NoDup (map id [record "c1" "" "running"])) as Hnd
    by (apply (bool_decide_unpack _); vm_compute; exact I).
  assert (record "c1" "" "running" ∈ [record "c1" "" "running"]) as Hin
    by left.
  assert (NoDup (map id [blank_c1])) as Hnd'
    by (apply (bool_decide_unpack _); vm_compute; exact I).
  assert (blank_c1 ∈ [blank_c1]) as Hin' by left.
  assert (name blank_c1 <> "") as Hname by discriminate.
  destruct C6_empty_name_uses_id as (H1 & H2 & H3).
  split; [|split].
  - split; [exact Hnd|]. split; [exact Hin|]. split; [reflexivity|].
    exact (proj1 (H1 codeUnitCompare _ _ Hnd Hin eq_refl)).
  - split; [exact Hnd'|]. split; [exact Hin'|]. split; [exact Hname|].
    split; [reflexivity|].
    exact (proj1 (H2 codeUnitCompare _ _ Hnd' Hin' Hname eq_refl)).
  - split; [reflexivity|].
    by rewrite (H3 codeUnitCompare (record "c1" "" "running") eq_refl eq_refl).
Defined.

(** ** Records without name and id *)

Lemma filter_ext_elem {A} (P Q : A -> Prop)
    `{!forall x, Decision (P x)} `{!forall x, Decision (Q x)} (l : list A) :
  (forall x, x ∈ l -> P x <-> Q x) -> filter P l = filter Q l.
Proof.
  induction l as [|x l IH]; intros HPQ; [done|].
  rewrite !filter_cons, IH by (intros y Hy; apply HPQ; by right).
  destruct (decide (P x)) as [HP|HP].
  - rewrite decide_True; [done|]. apply HPQ; [left|done].
  - rewrite decide_False; [done|]. intros HQ. apply HP, HPQ; [left|done].
Qed.

(** C7 as stated fails: a record with empty name and id shares its group with
    a record whose name is blank. *)
Lemma C7_counterexample :
  name nameless = "" /\ id nameless = ""
  /\ groupContainersByNamePrefix codeUnitCompare [nameless; blank_x]
     = [ {| key := ""; containers := [blank_x; nameless];
            runningCount := 1; stoppedCount := 1 |} ].
Proof. vm_compute. repeat split; reflexivity. Qed.

(** C7, amended: in a snapshot with pairwise distinct ids, a record with
    empty name and id lies in the group keyed by the empty string, whose
    members are the records of the snapshot whose name-or-id trims to the
    empty string: the record alone when there is no other such record; the
    result still groups every record of the snapshot. *)
Theorem C7_nameless_record (lc : string -> string -> Z)
    (cs : list ContainerInfo) (c : ContainerInfo) :
  NoDup (map id cs) -> c ∈ cs -> name c = "" -> id c = "" ->
  (exists g,
      g ∈ groupContainersByNamePrefix lc cs
      /\ key g = ""
      /\ c ∈ containers g
      /\ containers g ≡ₚ filter (fun c' => trim (name_or_id c') = "") cs
      /\ (filter (fun c' => trim (name_or_id c') = "") cs = [c] ->
          containers g = [c]))
  /\ concat (map containers (groupContainersByNamePrefix lc cs)) ≡ₚ cs.
Proof.
  intros Hnd Hc Hname Hid. split; [|apply output_members_perm].
  assert (trim (name_or_id c) = "") as Ht
    by (by rewrite (name_or_id_empty_name c Hname), Hid).
  pose proof (proj2 (select_key_empty cs Hnd c Hc) Ht) as Hk.
  destruct (group_of_record lc cs c Hc) as [Hg Hin].
  eexists. split; [exact Hg|]. split; [exact Hk|]. split; [exact Hin|].
  simpl. rewrite Hk.
  assert (filter (fun c' => select_key (first_pass cs).1 (first_pass cs).2 c'
                            = "") cs
          = filter (fun c' => trim (name_or_id c') = "") cs) as ->.
  { apply filter_ext_elem. intros c' Hc'. by apply select_key_empty. }
  split; [apply Array_sort_perm|].
  by intros ->.
Qed.

Lemma C7_nameless_record_witness :
  NoDup (map id [nameless; blank_x]) /\ nameless ∈ [nameless; blank_x]
  /\ name nameless = "" /\ id nameless = ""
  /\ (exists g,
         g ∈ groupContainersByNamePrefix codeUnitCompare [nameless; blank_x]
         /\ key g = ""
         /\ nameless ∈ containers g
         /\ containers g
            ≡ₚ filter (fun c' => trim (name_or_id c') = "") [nameless; blank_x]
         /\ (filter (fun c' => trim (name_or_id c') = "") [nameless; blank_x]
             = [nameless] ->
             containers g = [nameless]))
  /\ concat (map containers
               (groupContainersByNamePrefix codeUnitCompare [nameless; blank_x]))
     ≡ₚ [nameless; blank_x].
Proof.
  assert (NoDup (map id [nameless; blank_x])) as Hnd
    by (apply (bool_decide_unpack _); vm_compute; exact I).
  assert (nameless ∈ [nameless; blank_x]) as Hin by left.
  split; [exact Hnd|]. split; [exact Hin|].
  split; [reflexivity|]. split; [reflexivity|].
  exact (C7_nameless_record codeUnitCompare [nameless; blank_x] nameless
           Hnd Hin eq_refl eq_refl).
Defined.

(** ** The heap *)

Section HeapOps.

Import Mem.

Lemma deref_Forall2 (h : Heap) (rs : list ref) (os : list ContainerInfo) :
  deref h rs = Some os <-> Forall2 (fun r o => objects h !! r = Some o) rs os.
Proof. apply mapM_Some. Qed.

Lemma get_objects_deref (h : Heap) (rs : list ref) (os : list ContainerInfo) :
  deref h rs = Some os -> get_objects rs h = Some (os, h).
Proof.
  rewrite deref_Forall2. induction 1 as [|r o rs os Hr _ IH]; [done|].
  simpl. unfold bind, get_object. rewrite Hr, IH. done.
Qed.

Lemma snapshot_Some (h : Heap) (a : ref) (os : list ContainerInfo) :
  snapshot h a = Some os
  <-> exists rs, arrays h !! a = Some rs /\ deref h rs = Some os.
Proof.
  unfold snapshot. destruct (arrays h !! a) as [rs|].
  - split; [by exists rs|]. by intros (? & [= <-] & ?).
  - split; [done|]. by intros (? & ? & ?).
Qed.

Lemma snapshot_with_array_ne (h : Heap) (a b : ref) (rs : list ref) :
  a <> b -> snapshot (with_array h a rs) b = snapshot h b.
Proof.
  intros Hne. unfold snapshot, with_array. simpl.
  by rewrite lookup_insert_ne.
Qed.

Lemma snapshot_with_array_eq (h : Heap) (a : ref) (rs : list ref) :
  snapshot (with_array h a rs) a = deref h rs.
Proof.
  unfold snapshot, with_array. simpl. by rewrite lookup_insert_eq.
Qed.

(** Heaps with the same objects, and the same array at [a], show the same
    snapshot there. *)
Lemma snapshot_frame (h h' : Heap) (a : ref) :
  objects h' = objects h -> arrays h' !! a = arrays h !! a ->
  snapshot h' a = snapshot h a.
Proof. unfold snapshot, deref. by intros -> ->. Qed.

(** A loop that keeps the array in place and whose turns keep an
    invariant runs to the end of the array. *)
Lemma for_of_inv {S} (P : nat -> S -> Heap -> Prop) (arr : ref)
    (rs : list ref) (body : S -> ref -> M S) :
  (forall i s h, P i s h -> arrays h !! arr = Some rs) ->
  (forall i s h x, P i s h -> rs !! i = Some x ->
     exists s' h', body s x h = Some (s', h') /\ P (Datatypes.S i) s' h') ->
  forall fuel i s h,
    P i s h -> i <= length rs -> length rs - i < fuel ->
    exists s' h',
      for_of fuel arr i body s h = Some (s', h') /\ P (length rs) s' h'.
Proof.
  intros Harr Hbody fuel.
  induction fuel as [|fuel IH]; intros i s h HP Hi Hfuel; [lia|].
  simpl. unfold bind, array_read. rewrite (Harr i s h HP).
  destruct (rs !! i) as [x|] eqn:Hx.
  - destruct (Hbody i s h x HP Hx) as (s' & h' & -> & HP').
    apply lookup_lt_Some in Hx.
    apply (IH (Datatypes.S i) s' h' HP'); lia.
  - apply lookup_ge_None in Hx.
    assert (i = length rs) as -> by lia.
    by exists s, h.
Qed.

End HeapOps.

Section HeapRun.

Import Mem.

Variable h0 : Heap.
Variable input : ref.
Variable rs0 : list ref.
Variable cs : list ContainerInfo.
Hypothesis input_array : arrays h0 !! input = Some rs0.
Hypothesis input_records : deref h0 rs0 = Some cs.

Lemma input_lookup (i : nat) (x : ref) :
  rs0 !! i = Some x ->
  exists o, cs !! i = Some o /\ objects h0 !! x = Some o.
Proof.
  intros Hx. apply deref_Forall2 in input_records.
  destruct (Forall2_lookup_l _ _ _ _ _ input_records Hx) as (o & Ho & Hxo).
  by exists o.
Qed.

Lemma input_length : length rs0 = length cs.
Proof. apply deref_Forall2 in input_records. by eapply Forall2_length. Qed.

(** The first loop reads only. *)
Lemma first_loop (fuel : nat) :
  length cs < fuel ->
  for_of fuel input 0 first_pass_step (∅, ∅) h0 = Some (first_pass cs, h0).
Proof.
  intros Hfuel.
  destruct (for_of_inv
              (fun i s h => h = h0
                            /\ s = foldl first_pass_body (∅, ∅) (take i cs))
              input rs0 first_pass_step) with (fuel := fuel) (i := 0)
              (s := ((∅, ∅) : gmap string nat * gmap string (list string)))
              (h := h0)
    as (s' & h' & Hrun & -> & ->).
  - by intros i s h [-> _].
  - intros i s h x [-> ->] Hx.
    destruct (input_lookup i x Hx) as (o & Ho & Hxo).
    eexists _, h0. split.
    + unfold first_pass_step, bind, get_object. rewrite Hxo. done.
    + split; [done|]. by rewrite (take_S_r _ _ _ Ho), foldl_app.
  - done.
  - lia.
  - rewrite input_length. lia.
  - rewrite Hrun. rewrite input_length, firstn_all. done.
Qed.

Variable candidateCounts : gmap string nat.
Variable candidatesById : gmap string (list string).

Lemma Map_get_Some (G : list (string * ref)) (k : string) (a : ref) :
  Map_get G k = Some a -> a ∈ G.*2.
Proof.
  induction G as [|[k' a'] G IH]; [done|]. simpl.
  destruct (String.eqb k' k).
  - intros [= ->]. left.
  - intros H. right. by apply IH.
Qed.

Lemma group_entry_with_array_ne (h : Heap) (a : ref) (rs : list ref)
    (G : list (string * ref)) (PG : list (string * list ContainerInfo)) :
  a ∉ G.*2 ->
  Forall2 (group_entry h) G PG ->
  Forall2 (group_entry (with_array h a rs)) G PG.
Proof.
  intros Ha HG. induction HG as [|[k b] pe G PG [Hk Hs] _ IH]; [constructor|].
  rewrite fmap_cons in Ha. apply not_elem_of_cons in Ha as [Hne Ha].
  constructor; [|by apply IH].
  split; [done|]. simpl in *. by rewrite snapshot_with_array_ne.
Qed.

Lemma deref_snoc (h : Heap) (rs : list ref) (os : list ContainerInfo)
    (x : ref) (o : ContainerInfo) :
  deref h rs = Some os -> objects h !! x = Some o ->
  deref h (rs ++ [x]) = Some (os ++ [o]).
Proof.
  rewrite !deref_Forall2. intros Hrs Hx.
  apply Forall2_app; [done|]. by repeat constructor.
Qed.

Lemma push_existing (h : Heap) (G : list (string * ref))
    (PG : list (string * list ContainerInfo)) (k : string) (a x : ref)
    (rs : list ref) (o : ContainerInfo) :
  Forall2 (group_entry h) G PG -> NoDup (G.*2) ->
  Map_get G k = Some a -> arrays h !! a = Some rs ->
  objects h !! x = Some o ->
  Forall2 (group_entry (with_array h a (rs ++ [x]))) G (groups_push PG k o).
Proof.
  intros HG. revert a rs.
  induction HG as [|[k' a'] [pk items] G PG [Hk Hs] HG IH];
    intros a rs Hnd Hget Ha Hx; [done|].
  rewrite fmap_cons in Hnd. apply NoDup_cons in Hnd as [Ha' Hnd].
  simpl in Hk, Hs, Hget, Ha'. subst pk. simpl.
  destruct (String.eqb k' k) eqn:Hkk.
  - injection Hget as <-. constructor.
    + split; [done|]. simpl. rewrite snapshot_with_array_eq.
      apply snapshot_Some in Hs as (rs' & Hrs' & Hd).
      rewrite Ha in Hrs'. injection Hrs' as <-.
      by apply deref_snoc.
    + by apply group_entry_with_array_ne.
  - pose proof (Map_get_Some _ _ _ Hget) as Hin.
    constructor; [|by apply IH].
    split; [done|]. simpl. rewrite snapshot_with_array_ne; [done|].
    by intros ->.
Qed.

Lemma push_new (h : Heap) (G : list (string * ref))
    (PG : list (string * list ContainerInfo)) (k : string) (a x : ref)
    (o : ContainerInfo) :
  Forall2 (group_entry h) G PG ->
  Map_get G k = None -> a ∉ G.*2 ->
  objects h !! x = Some o ->
  Forall2 (group_entry (with_array h a [x])) (G ++ [(k, a)])
    (groups_push PG k o).
Proof.
  intros HG.
  induction HG as [|[k' a'] [pk items] G PG [Hk Hs] HG IH];
    intros Hget Ha Hx.
  - simpl. constructor; [|constructor]. split; [done|]. simpl.
    rewrite snapshot_with_array_eq. apply deref_Forall2.
    by repeat constructor.
  - rewrite fmap_cons in Ha. apply not_elem_of_cons in Ha as [Hne Ha].
    simpl in Hk, Hs, Hget, Hne. subst pk. simpl.
    destruct (String.eqb k' k); [done|].
    constructor; [|by apply IH].
    split; [done|]. simpl. by rewrite snapshot_with_array_ne.
Qed.

Lemma groups_allocated (h : Heap) (G : list (string * ref))
    (PG : list (string * list ContainerInfo)) (a : ref) :
  Forall2 (group_entry h) G PG -> a ∈ G.*2 -> a ∈ dom (arrays h).
Proof.
  induction 1 as [|[k' a'] pe G PG [_ Hs] _ IH]; rewrite ?fmap_cons.
  - by intros ?%elem_of_nil.
  - intros [->|Hin]%elem_of_cons; [|by apply IH].
    simpl in Hs. apply snapshot_Some in Hs as (rs & Hrs & _).
    apply elem_of_dom. by eexists.
Qed.

Lemma second_pass_step_inv (h : Heap) (G : list (string * ref))
    (PG : list (string * list ContainerInfo)) (x : ref) (o : ContainerInfo) :
  groups_inv h0 h G PG -> objects h0 !! x = Some o ->
  exists G' h',
    second_pass_step candidateCounts candidatesById G x h = Some (G', h')
    /\ groups_inv h0 h' G'
         (groups_push PG (select_key candidateCounts candidatesById o) o).
Proof.
  intros (Hobj & Hold & Hnew & Hnd & HG) Hx.
  assert (objects h !! x = Some o) as Hx' by (by rewrite Hobj).
  unfold second_pass_step, bind, get_object. rewrite Hx'.
  set (k := select_key candidateCounts candidatesById o).
  destruct (Map_get G k) as [a|] eqn:Hget.
  - pose proof (Map_get_Some _ _ _ Hget) as Hin.
    pose proof (groups_allocated h G PG a HG Hin) as Ha.
    apply elem_of_dom in Ha as [rs Hrs].
    unfold array_push, bind, array_read, array_write.
    rewrite Hrs. cbn beta iota. rewrite Hrs.
    eexists G, _. split; [reflexivity|].
    assert (a ∉ dom (arrays h0)) as Hfresh.
    { rewrite Forall_forall in Hnew.
      apply list_elem_of_fmap in Hin as (e & -> & He). by apply Hnew. }
    split; [done|]. split.
    { intros a' Ha'. simpl. rewrite lookup_insert_ne; [by apply Hold|].
      by intros ->. }
    split; [done|]. split; [done|].
    by apply push_existing.
  - unfold array_new, ret.
    set (a := fresh (dom (arrays h))).
    assert (a ∉ dom (arrays h)) as Hfresh by apply is_fresh.
    eexists (G ++ [(k, a)]), _. split; [reflexivity|].
    assert (a ∉ dom (arrays h0)) as Hfresh0.
    { intros Ha. apply Hfresh. apply elem_of_dom.
      rewrite (Hold a Ha). by apply elem_of_dom. }
    assert (a ∉ G.*2) as HaG.
    { intros Ha. apply Hfresh. by eapply groups_allocated. }
    split; [done|]. split.
    { intros a' Ha'. simpl. rewrite lookup_insert_ne; [by apply Hold|].
      by intros ->. }
    split.
    { apply Forall_app. split; [done|]. by repeat constructor. }
    split.
    { rewrite fmap_app. apply NoDup_app. split; [done|].
      split; [|by apply NoDup_singleton].
      intros b Hb ->%list_elem_of_singleton. done. }
    by apply push_new.
Qed.

(** The second loop builds, in new arrays, the map of the value-level
    function. *)
Lemma second_loop (fuel : nat) :
  length cs < fuel ->
  exists G h,
    for_of fuel input 0
      (second_pass_step candidateCounts candidatesById) [] h0 = Some (G, h)
    /\ groups_inv h0 h G (second_pass candidateCounts candidatesById cs).
Proof.
  intros Hfuel.
  destruct (for_of_inv
              (fun i G h =>
                 groups_inv h0 h G
                   (second_pass candidateCounts candidatesById (take i cs)))
              input rs0 (second_pass_step candidateCounts candidatesById))
    with (fuel := fuel) (i := 0) (s := ([] : list (string * ref))) (h := h0)
    as (G & h & Hrun & Hinv).
  - intros i G h (_ & Hold & _). rewrite Hold; [done|].
    apply elem_of_dom. by eexists.
  - intros i G h x Hinv Hx.
    destruct (input_lookup i x Hx) as (o & Ho & Hxo).
    destruct (second_pass_step_inv h G _ x o Hinv Hxo) as (G' & h' & Hs & Hi).
    exists G', h'. split; [done|].
    by rewrite (take_S_r _ _ _ Ho), second_pass_snoc.
  - split; [done|]. split; [done|]. split; [constructor|].
    split; [constructor|]. rewrite take_0. constructor.
  - lia.
  - rewrite input_length. lia.
  - exists G, h. split; [done|].
    by rewrite input_length, firstn_all in Hinv.
Qed.

End HeapRun.

Section HeapSort.

Local Abbreviation group_values := groupContainersByNamePrefix.

Import Mem.

Variable lc : string -> string -> Z.

(** Sorting two lists whose elements correspond, with comparators that
    agree on corresponding elements, gives corresponding lists. *)
Lemma Array_sort_Forall2 {A B} (R : A -> B -> Prop)
    (cmpA : A -> A -> Z) (cmpB : B -> B -> Z) (l : list A) (k : list B) :
  (forall a a' b b', R a b -> R a' b' -> cmpA a a' = cmpB b b') ->
  Forall2 R l k ->
  Forall2 R (Array_sort cmpA l) (Array_sort cmpB k).
Proof.
  intros Hcmp. induction 1 as [|a b l k Hab _ IH]; [constructor|].
  simpl. fold (Array_sort cmpA l) (Array_sort cmpB k).
  induction IH as [|a' b' l' k' Hab' Hl' IH']; simpl.
  - by repeat constructor.
  - rewrite (Hcmp a a' b b' Hab Hab').
    destruct (cmpB b b' <=? 0)%Z.
    + by repeat constructor.
    + by constructor.
Qed.

Lemma sort_members_spec (h : Heap) (a : ref) (rs : list ref)
    (items : list ContainerInfo) :
  arrays h !! a = Some rs -> deref h rs = Some items ->
  exists rs',
    sort_members lc a h = Some (tt, with_array h a rs')
    /\ deref h rs' = Some (Array_sort (member_compare lc) items).
Proof.
  intros Ha Hd. unfold sort_members, bind, array_read, array_write.
  rewrite Ha, (get_objects_deref h rs items Hd). cbn beta iota. rewrite Ha.
  eexists. split; [reflexivity|].
  apply deref_Forall2. apply Forall2_fmap_l.
  apply deref_Forall2 in Hd.
  eapply Forall2_impl.
  - apply (Array_sort_Forall2
             (fun (p : ref * ContainerInfo) o =>
                objects h !! p.1 = Some o /\ p.2 = o)).
    + by intros p p' o o' [_ ->] [_ ->].
    + clear Ha. induction Hd as [|r o rs items Hr _ IH]; [constructor|].
      simpl. by constructor.
  - by intros p o [Hp _].
Qed.

Lemma view_Forall2 (h : Heap) (out : list GroupObject)
    (pgs : list ContainerGroup) :
  view h out = Some pgs
  <-> Forall2 (fun g pg => view_group h g = Some pg) out pgs.
Proof. apply mapM_Some. Qed.

Lemma view_group_frame (h h' : Heap) (g : GroupObject) :
  objects h' = objects h ->
  arrays h' !! g_containers g = arrays h !! g_containers g ->
  view_group h' g = view_group h g.
Proof.
  intros Ho Ha. unfold view_group. by rewrite (snapshot_frame h h' _ Ho Ha).
Qed.

Lemma make_group_step_spec (h : Heap) (acc : list GroupObject) (k : string)
    (a : ref) (rs : list ref) (items : list ContainerInfo) :
  arrays h !! a = Some rs -> deref h rs = Some items ->
  exists rs',
    make_group_step lc acc (k, a) h
    = Some (acc ++ [ {| g_key := k; g_containers := a;
                        g_runningCount :=
                          length (List.filter is_running items);
                        g_stoppedCount :=
                          length rs - length (List.filter is_running items) |} ],
            with_array h a rs')
    /\ deref h rs' = Some (Array_sort (member_compare lc) items).
Proof.
  intros Hrs Hd.
  destruct (sort_members_spec h a rs items Hrs Hd) as (rs' & Hsort & Hd').
  exists rs'. split; [|done].
  unfold make_group_step, bind, array_read. rewrite Hrs.
  rewrite (get_objects_deref h rs items Hd). cbn beta iota.
  unfold bind in Hsort. by rewrite Hsort.
Qed.

(** The third loop sorts each member array in place and leaves every
    other array alone. *)
Lemma third_loop (G : list (string * ref))
    (PG : list (string * list ContainerInfo)) (h : Heap)
    (acc : list GroupObject) :
  Forall2 (group_entry h) G PG -> NoDup (G.*2) ->
  exists outs h',
    for_each G (make_group_step lc) acc h = Some (acc ++ outs, h')
    /\ objects h' = objects h
    /\ (forall a, a ∉ G.*2 -> arrays h' !! a = arrays h !! a)
    /\ Forall2 (fun g pe => view_group h' g = Some (make_group lc pe)) outs PG
    /\ map g_containers outs = G.*2.
Proof.
  revert PG h acc.
  induction G as [|[k a] G IH]; intros PG h acc HG Hnd.
  - apply Forall2_nil_inv_l in HG as ->.
    exists [], h. rewrite app_nil_r. by repeat split.
  - apply Forall2_cons_inv_l in HG as ([pk items] & PG' & [Hk Hs] & HG & ->).
    rename PG' into PG.
    rewrite fmap_cons in Hnd. apply NoDup_cons in Hnd as [Ha Hnd].
    simpl in Hk, Hs, Ha. subst pk.
    apply snapshot_Some in Hs as (rs & Hrs & Hd).
    destruct (make_group_step_spec h acc k a rs items Hrs Hd)
      as (rs' & Hstep & Hd').
    set (g := {| g_key := k; g_containers := a;
                 g_runningCount := length (List.filter is_running items);
                 g_stoppedCount :=
                   length rs - length (List.filter is_running items) |}).
    destruct (IH PG (with_array h a rs') (acc ++ [g])
                (group_entry_with_array_ne h a rs' G PG Ha HG) Hnd)
      as (outs & h' & Hrun & Hobj & Hframe & Hview & Hrefs).
    exists (g :: outs), h'. split.
    { cbn [for_each]. unfold bind at 1. rewrite Hstep.
      fold g. rewrite Hrun, <- app_assoc. done. }
    split; [done|]. split.
    { intros b Hb. rewrite fmap_cons in Hb.
      apply not_elem_of_cons in Hb as [Hne Hb]. simpl in Hne.
      rewrite (Hframe b Hb). simpl. by rewrite lookup_insert_ne. }
    split; [|by rewrite fmap_cons; simpl; f_equal].
    constructor; [|done].
    rewrite (view_group_frame (with_array h a rs') h' g Hobj (Hframe a Ha)).
    unfold view_group. simpl. rewrite snapshot_with_array_eq, Hd'.
    unfold make_group. do 3 f_equal.
    apply deref_Forall2, Forall2_length in Hd. by rewrite Hd.
Qed.

Lemma read_lengths_view (h : Heap) (out : list GroupObject)
    (pgs : list ContainerGroup) :
  Forall2 (fun g pg => view_group h g = Some pg) out pgs ->
  read_lengths out h = Some (map (fun pg => length (containers pg)) pgs, h).
Proof.
  induction 1 as [|g pg out pgs Hg _ IH]; [done|].
  simpl. unfold bind, array_read. unfold view_group in Hg.
  destruct (snapshot h (g_containers g)) as [os|] eqn:Hs; [|done].
  injection Hg as <-.
  apply snapshot_Some in Hs as (rs & -> & Hd).
  rewrite IH. simpl.
  apply deref_Forall2, Forall2_length in Hd. by rewrite Hd.
Qed.

(** The last sort orders the group objects as [Array_sort] orders their
    values. *)
Lemma sort_groups_spec (h : Heap) (out : list GroupObject)
    (pgs : list ContainerGroup) :
  Forall2 (fun g pg => view_group h g = Some pg) out pgs ->
  exists out',
    sort_groups lc out h = Some (out', h)
    /\ Forall2 (fun g pg => view_group h g = Some pg) out'
         (Array_sort (group_compare lc) pgs)
    /\ out' ≡ₚ out.
Proof.
  intros Hv. unfold sort_groups, bind.
  rewrite (read_lengths_view h out pgs Hv).
  eexists. split; [reflexivity|]. split.
  - apply Forall2_fmap_l. eapply Forall2_impl.
    + apply (Array_sort_Forall2
               (fun (p : GroupObject * nat) pg =>
                  view_group h p.1 = Some pg
                  /\ p.2 = length (containers pg))).
      * intros [g n] [g' n'] pg pg' [Hg Hn] [Hg' Hn'].
        simpl in Hg, Hg', Hn, Hn'. subst n n'.
        unfold view_group in Hg, Hg'.
        destruct (snapshot h (g_containers g)); [|done].
        destruct (snapshot h (g_containers g')); [|done].
        injection Hg as <-. injection Hg' as <-. done.
      * induction Hv as [|g pg out pgs Hg _ IH]; [constructor|].
        simpl. by constructor.
    + by intros p pg [Hp _].
  - rewrite (Permutation_map fst (Array_sort_perm _ _)).
    assert (length out = length (map (fun pg => length (containers pg)) pgs))
      as Hlen by (rewrite length_map; by eapply Forall2_length).
    revert Hlen. generalize (map (fun pg => length (containers pg)) pgs).
    clear Hv. induction out as [|g out IH]; intros [|n ns] Hlen;
      try done. simpl. rewrite IH; [done|]. simpl in Hlen. lia.
Qed.

(** The call on the heap: it returns; objects and the arrays that existed
    are as before; the groups read back are those of the value-level
    function; their member arrays are new and pairwise distinct. *)
Lemma run_spec (fuel : nat) (h : Heap) (input : ref)
    (cs : list ContainerInfo) :
  snapshot h input = Some cs -> length cs < fuel ->
  exists out h',
    Mem.groupContainersByNamePrefix lc fuel input h = Some (out, h')
    /\ objects h' = objects h
    /\ (forall a, a ∈ dom (arrays h) -> arrays h' !! a = arrays h !! a)
    /\ view h' out = Some (group_values lc cs)
    /\ Forall (fun g => g_containers g ∉ dom (arrays h)) out
    /\ NoDup (map g_containers out).
Proof.
  intros (rs0 & Hin & Hd)%snapshot_Some Hfuel.
  unfold Mem.groupContainersByNamePrefix.
  unfold bind at 1. rewrite (first_loop h input rs0 cs Hin Hd fuel Hfuel).
  rewrite groupContainersByNamePrefix_eq.
  destruct (first_pass cs) as [counts byId]. simpl.
  destruct (second_loop h input rs0 cs Hin Hd counts byId fuel Hfuel)
    as (G & h1 & Hrun1 & Hobj1 & Hold1 & Hnew & Hnd & HG).
  unfold bind at 1. rewrite Hrun1.
  destruct (third_loop G _ h1 [] HG Hnd)
    as (outs & h2 & Hrun2 & Hobj2 & Hframe2 & Hview & Hrefs).
  unfold bind at 1. rewrite Hrun2. simpl.
  assert (Forall2 (fun g pg => view_group h2 g = Some pg) outs
            (map (make_group lc) (second_pass counts byId cs))) as Hview'
    by (apply Forall2_fmap_r; exact Hview).
  destruct (sort_groups_spec h2 outs _ Hview')
    as (out & Hrun3 & Hsorted & Hperm).
  exists out, h2. split; [exact Hrun3|].
  split; [by rewrite Hobj2|]. split.
  { intros a Ha. rewrite Hframe2; [by apply Hold1|].
    intros (e & -> & He)%list_elem_of_fmap.
    rewrite Forall_forall in Hnew. by apply (Hnew e He). }
  split; [by apply view_Forall2|].
  assert (map g_containers out ≡ₚ G.*2) as Hp.
  { rewrite <- Hrefs. by apply Permutation_map. }
  split; [|by rewrite Hp].
  apply Forall_forall. intros g Hg.
  assert (g_containers g ∈ G.*2) as (e & -> & He)%list_elem_of_fmap.
  { rewrite <- Hp. apply list_elem_of_In, in_map. by apply list_elem_of_In. }
  rewrite Forall_forall in Hnew. by apply (Hnew e He).
Qed.

End HeapSort.

(** ** Frame and purity *)

(** C10: a call on a heap whose input array holds the snapshot returns, given
    fuel above the number of records, with the input array, every other
    array that existed, and every record object as they were; the member
    array of each output group is at an address that was not in use, and no
    two groups share one. *)
Theorem C10_input_unchanged (lc : string -> string -> Z) (fuel : nat)
    (h : Mem.Heap) (input : Mem.ref) (cs : list ContainerInfo) :
  Mem.snapshot h input = Some cs -> length cs < fuel ->
  exists out h',
    Mem.groupContainersByNamePrefix lc fuel input h = Some (out, h')
    /\ Mem.arrays h' !! input = Mem.arrays h !! input
    /\ Mem.snapshot h' input = Some cs
    /\ Mem.objects h' = Mem.objects h
    /\ (forall a, a ∈ dom (Mem.arrays h) ->
                  Mem.arrays h' !! a = Mem.arrays h !! a)
    /\ Forall (fun g => Mem.g_containers g ∉ dom (Mem.arrays h)) out
    /\ NoDup (map Mem.g_containers out).
Proof.
  intros Hs Hfuel.
  destruct (run_spec lc fuel h input cs Hs Hfuel)
    as (out & h' & Hrun & Hobj & Hold & _ & Hnew & Hnd).
  assert (Mem.arrays h' !! input = Mem.arrays h !! input) as Hin.
  { apply Hold. apply snapshot_Some in Hs as (rs & Hrs & _).
    apply elem_of_dom. by eexists. }
  exists out, h'. split; [done|]. split; [done|].
  split; [by rewrite (snapshot_frame h h' input Hobj Hin)|].
  by repeat split.
Qed.

Lemma C10_input_unchanged_witness :
  Mem.snapshot heap_B 0 = Some scenario_B /\ length scenario_B < 4
  /\ exists out h',
       Mem.groupContainersByNamePrefix codeUnitCompare 4 0 heap_B
       = Some (out, h')
       /\ Mem.arrays h' !! 0 = Mem.arrays heap_B !! 0
       /\ Mem.snapshot h' 0 = Some scenario_B
       /\ Mem.objects h' = Mem.objects heap_B
       /\ (forall a, a ∈ dom (Mem.arrays heap_B) ->
                     Mem.arrays h' !! a = Mem.arrays heap_B !! a)
       /\ Forall (fun g => Mem.g_containers g ∉ dom (Mem.arrays heap_B)) out
       /\ NoDup (map Mem.g_containers out).
Proof.
  assert (Mem.snapshot heap_B 0 = Some scenario_B) as Hs by reflexivity.
  assert (length scenario_B < 4) as Hfuel by (simpl; lia).
  split; [exact Hs|]. split; [exact Hfuel|].
  exact (C10_input_unchanged codeUnitCompare 4 heap_B 0 scenario_B Hs Hfuel).
Defined.

(** C9: for a given [localeCompare], two calls on heaps whose input arrays
    hold the same snapshot both return, and the groups read back are the same
    list, that of the value-level function of the snapshot; a second call
    after the first, on the heap the first has left, returns that list again
    and leaves the first result as it was. *)
Theorem C9_pure_function (lc : string -> string -> Z) (fuel1 fuel2 : nat)
    (h1 h2 : Mem.Heap) (in1 in2 : Mem.ref) (cs : list ContainerInfo) :
  Mem.snapshot h1 in1 = Some cs -> Mem.snapshot h2 in2 = Some cs ->
  length cs < fuel1 -> length cs < fuel2 ->
  exists out1 h1' out2 h2',
    Mem.groupContainersByNamePrefix lc fuel1 in1 h1 = Some (out1, h1')
    /\ Mem.groupContainersByNamePrefix lc fuel2 in2 h2 = Some (out2, h2')
    /\ Mem.view h1' out1 = Some (groupContainersByNamePrefix lc cs)
    /\ Mem.view h2' out2 = Mem.view h1' out1
    /\ exists out3 h3,
         Mem.groupContainersByNamePrefix lc fuel2 in1 h1' = Some (out3, h3)
         /\ Mem.view h3 out3 = Mem.view h1' out1
         /\ Mem.view h3 out1 = Mem.view h1' out1.
Proof.
  intros Hs1 Hs2 Hf1 Hf2.
  destruct (run_spec lc fuel1 h1 in1 cs Hs1 Hf1)
    as (out1 & h1' & Hrun1 & Hobj1 & Hold1 & Hview1 & _ & _).
  destruct (run_spec lc fuel2 h2 in2 cs Hs2 Hf2)
    as (out2 & h2' & Hrun2 & _ & _ & Hview2 & _ & _).
  assert (Mem.snapshot h1' in1 = Some cs) as Hs1'.
  { rewrite <- Hs1. apply snapshot_frame; [done|]. apply Hold1.
    apply snapshot_Some in Hs1 as (rs & Hrs & _).
    apply elem_of_dom. by eexists. }
  destruct (run_spec lc fuel2 h1' in1 cs Hs1' Hf2)
    as (out3 & h3 & Hrun3 & Hobj3 & Hold3 & Hview3 & _ & _).
  exists out1, h1', out2, h2'. split; [done|]. split; [done|].
  split; [done|]. split; [by rewrite Hview1, Hview2|].
  exists out3, h3. split; [done|]. split; [by rewrite Hview1, Hview3|].
  rewrite Hview1. apply view_Forall2.
  apply view_Forall2 in Hview1.
  eapply Forall2_impl; [exact Hview1|].
  intros g pg Hg. rewrite <- Hg. apply view_group_frame; [done|].
  apply Hold3. unfold Mem.view_group in Hg.
  destruct (Mem.snapshot h1' (Mem.g_containers g)) as [os|] eqn:Hsg; [|done].
  apply snapshot_Some in Hsg as (rs & Hrs & _).
  apply elem_of_dom. by eexists.
Qed.

Lemma C9_pure_function_witness :
  Mem.snapshot heap_B 0 = Some scenario_B
  /\ length scenario_B < 4 /\ length scenario_B < 7
  /\ exists out1 h1' out2 h2',
       Mem.groupContainersByNamePrefix codeUnitCompare 4 0 heap_B
       = Some (out1, h1')
       /\ Mem.groupContainersByNamePrefix codeUnitCompare 7 0 heap_B
          = Some (out2, h2')
       /\ Mem.view h1' out1
          = Some (groupContainersByNamePrefix codeUnitCompare scenario_B)
       /\ Mem.view h2' out2 = Mem.view h1' out1
       /\ exists out3 h3,
            Mem.groupContainersByNamePrefix codeUnitCompare 7 0 h1'
            = Some (out3, h3)
            /\ Mem.view h3 out3 = Mem.view h1' out1
            /\ Mem.view h3 out1 = Mem.view h1' out1.
Proof.
  assert (Mem.snapshot heap_B 0 = Some scenario_B) as Hs by reflexivity.
  assert (length scenario_B < 4) as Hf1 by (simpl; lia).
  assert (length scenario_B < 7) as Hf2 by (simpl; lia).
  split; [exact Hs|]. split; [exact Hf1|]. split; [exact Hf2|].
  exact (C9_pure_function codeUnitCompare 4 7 heap_B heap_B 0 0 scenario_B
           Hs Hs Hf1 Hf2).
Defined.

(** * Further properties of the grouping *)

(** ** Candidates are prefixes *)

Lemma prefix_substring (i : nat) (t : string) :
  String.prefix (String.substring 0 i t) t = true.
Proof.
  revert i. induction t as [|c t IH]; intros [|i]; simpl; try done.
  destruct (ascii_dec c c); [apply IH|done].
Qed.

Lemma prefix_refl (t : string) : String.prefix t t = true.
Proof.
  induction t as [|c t IH]; simpl; [done|].
  destruct (ascii_dec c c); [apply IH|done].
Qed.

Lemma prefix_empty (t : string) : String.prefix "" t = true.
Proof. by destruct t. Qed.

Lemma prefix_length_eq (a b t : string) :
  String.prefix a t = true -> String.prefix b t = true ->
  String.length a = String.length b -> a = b.
Proof.
  intros Ha Hb Hlen. apply String.prefix_correct in Ha, Hb.
  by rewrite <- Ha, <- Hb, Hlen.
Qed.

Lemma spec_candidates_prefix (t s : string) :
  s ∈ spec_candidates t -> String.prefix s t = true.
Proof.
  unfold spec_candidates.
  rewrite dedup_keep_first_elem, elem_of_cons, elem_of_app.
  intros [->|[Hs|Hs]].
  - apply prefix_refl.
  - unfold spec_stripped in Hs.
    apply list_elem_of_In, filter_In in Hs as [Hs%list_elem_of_In _].
    unfold spec_remainders in Hs.
    apply list_elem_of_omap in Hs as (i & _ & Hi).
    destruct (is_index_suffix (suffix_from i t)); [|done].
    injection Hi as <-. apply prefix_substring.
  - unfold spec_sep_prefixes in Hs.
    apply list_elem_of_omap in Hs as (i & _ & Hi).
    destruct (String.get i t) as [ch|]; [|done].
    destruct (is_sep ch && negb (is_empty (String.substring 0 i t)));
      [|done].
    injection Hi as <-. apply prefix_substring.
Qed.

Lemma candidate_prefix (name s : string) :
  s ∈ containerGroupCandidates name ->
  s <> "" /\ String.prefix s (trim name) = true.
Proof.
  intros Hs. split; [by eapply candidates_nonempty|].
  rewrite containerGroupCandidates_spec in Hs.
  destruct (is_empty (trim name)); [by apply elem_of_nil in Hs|].
  by apply spec_candidates_prefix.
Qed.

(** X1: every candidate of a name is a non-empty prefix of the trimmed
    name. *)
Theorem candidates_are_prefixes (name : string) :
  Forall (fun s => s <> "" /\ String.prefix s (trim name) = true)
         (containerGroupCandidates name).
Proof. apply Forall_forall. intros s Hs. by apply candidate_prefix. Qed.

(** X2: two different candidates of one name never have the same length, so
    the comparison of lengths in the selection loop never ties. *)
Theorem candidates_lengths_distinct (name : string) :
  NoDup (map String.length (containerGroupCandidates name)).
Proof.
  apply (NoDup_fmap_2_strong String.length).
  - intros a b Ha Hb Hlen.
    destruct (candidate_prefix name a Ha) as [_ Hpa].
    destruct (candidate_prefix name b Hb) as [_ Hpb].
    by apply (prefix_length_eq a b (trim name)).
  - apply containerGroupCandidates_NoDup.
Qed.

(** X3: a name has no candidate exactly when it is blank; otherwise the
    first candidate is the trimmed name. *)
Theorem candidates_empty_iff (name : string) :
  (containerGroupCandidates name = [] <-> trim name = "")
  /\ (trim name <> "" ->
      head (containerGroupCandidates name) = Some (trim name)).
Proof.
  rewrite containerGroupCandidates_spec.
  destruct (is_empty (trim name)) eqn:He.
  - apply is_empty_true in He. split; [done|]. by intros [].
  - apply is_empty_false in He.
    destruct (spec_candidates_head (trim name)) as [rest ->].
    split; [split; [done|by intros ?]|done].
Qed.

Lemma candidates_empty_iff_witness :
  trim " db_2 " <> ""
  /\ head (containerGroupCandidates " db_2 ") = Some (trim " db_2 ").
Proof.
  assert (trim " db_2 " <> "") as Hne by discriminate.
  split; [exact Hne|].
  exact (proj2 (candidates_empty_iff " db_2 ") Hne).
Defined.

(** ** The two maps of the first pass *)

Lemma count_candidate_positive (m : gmap string nat) (l : list string) :
  map_Forall (fun _ n => 1 <= n) m ->
  map_Forall (fun _ n => 1 <= n) (foldl count_candidate m l).
Proof.
  revert m. induction l as [|x l IH]; intros m Hm; [done|].
  simpl. apply IH. unfold count_candidate.
  apply map_Forall_insert_2; [lia|done].
Qed.

Lemma first_pass_positive (cs : list ContainerInfo)
    (st : gmap string nat * gmap string (list string)) :
  map_Forall (fun _ n => 1 <= n) st.1 ->
  map_Forall (fun _ n => 1 <= n) (foldl first_pass_body st cs).1.
Proof.
  revert st. induction cs as [|c cs IH]; intros [m b] Hm; [done|].
  simpl. apply IH. simpl. by apply count_candidate_positive.
Qed.

(** X4: after the first pass, [candidateCounts] has an entry for a string
    exactly when some record has it as a candidate, and the entry is the
    number of such records. *)
Theorem candidateCounts_exact (cs : list ContainerInfo) (s : string) :
  (first_pass cs).1 !! s
  = if decide (frequency cs s = 0) then None else Some (frequency cs s).
Proof.
  pose proof (candidateCounts_frequency cs s) as Hf.
  pose proof (first_pass_positive cs (∅, ∅) (map_Forall_empty _)) as Hpos.
  fold (first_pass cs) in Hpos.
  destruct ((first_pass cs).1 !! s) as [n|] eqn:Hs; simpl in Hf.
  - specialize (Hpos s n Hs). simpl in Hpos.
    rewrite decide_False by lia. by rewrite Hf.
  - by rewrite decide_True.
Qed.

Lemma first_pass_snoc (cs : list ContainerInfo) (c : ContainerInfo) :
  first_pass (cs ++ [c]) = first_pass_body (first_pass cs) c.
Proof. unfold first_pass. by rewrite foldl_app. Qed.

(** X5: after the first pass, [candidatesById] maps an id to the candidates
    of the last record of the snapshot with that id, and has no entry for an
    id that no record carries. *)
Theorem candidatesById_last (cs : list ContainerInfo) (i : string) :
  (first_pass cs).2 !! i
  = candidates_for <$> last (filter (fun c => id c = i) cs).
Proof.
  induction cs as [|c cs IH] using rev_ind; [done|].
  rewrite first_pass_snoc, filter_app.
  destruct (first_pass cs) as [m b]. simpl in *.
  rewrite filter_cons, filter_nil.
  destruct (decide (id c = i)) as [<-|Hne].
  - rewrite lookup_insert_eq, last_snoc. simpl. by rewrite unique_candidates.
  - rewrite lookup_insert_ne by done. by rewrite app_nil_r.
Qed.

(** ** Keys and members *)

Lemma output_group_members (lc : string -> string -> Z)
    (cs : list ContainerInfo) (g : ContainerGroup) :
  g ∈ groupContainersByNamePrefix lc cs ->
  containers g
  ≡ₚ filter (fun c => select_key (first_pass cs).1 (first_pass cs).2 c = key g)
       cs.
Proof.
  intros (e & He & ->)%output_elem. destruct e as [k items].
  apply second_pass_entry in He as [-> _]. simpl.
  apply Array_sort_perm.
Qed.

Lemma output_member_key (lc : string -> string -> Z)
    (cs : list ContainerInfo) (g : ContainerGroup) (c : ContainerInfo) :
  g ∈ groupContainersByNamePrefix lc cs -> c ∈ containers g ->
  c ∈ cs /\ select_key (first_pass cs).1 (first_pass cs).2 c = key g.
Proof.
  intros Hg Hc. rewrite (output_group_members lc cs g Hg) in Hc.
  apply list_elem_of_filter in Hc as [? ?]. done.
Qed.

(** X6: in a snapshot with pairwise distinct ids, the key of a group is a
    prefix of the trimmed name-or-id of each of its members. *)
Theorem group_key_is_common_prefix (lc : string -> string -> Z)
    (cs : list ContainerInfo) :
  NoDup (map id cs) ->
  Forall (fun g =>
            Forall (fun c => String.prefix (key g) (trim (name_or_id c)) = true)
                   (containers g))
         (groupContainersByNamePrefix lc cs).
Proof.
  intros Hnd. apply Forall_forall. intros g Hg.
  apply Forall_forall. intros c Hc.
  destruct (output_member_key lc cs g c Hg Hc) as [Hin <-].
  destruct (select_key_spec cs Hnd c Hin) as [[_ ->]|Hw].
  - apply prefix_refl.
  - apply wins_elem in Hw as [Hk _]. unfold candidates_for in Hk.
    destruct (candidate_prefix _ _ Hk) as [_ Hpre].
    by rewrite trim_idemp in Hpre.
Qed.

Lemma group_key_is_common_prefix_witness :
  NoDup (map id scenario_B)
  /\ Forall (fun g =>
               Forall (fun c => String.prefix (key g) (trim (name_or_id c))
                                = true)
                      (containers g))
            (groupContainersByNamePrefix codeUnitCompare scenario_B).
Proof.
  assert (NoDup (map id scenario_B)) as Hnd
    by (apply (bool_decide_unpack _); vm_compute; exact I).
  split; [exact Hnd|].
  exact (group_key_is_common_prefix codeUnitCompare scenario_B Hnd).
Defined.

(** X7: in a snapshot with pairwise distinct ids, a group whose key is not
    empty has at most as many members as the frequency index counts for its
    key, and the key is a candidate of every member; so a group of two or
    more has an eligible key. *)
Theorem group_size_bounded_by_count (lc : string -> string -> Z)
    (cs : list ContainerInfo) :
  NoDup (map id cs) ->
  Forall (fun g =>
            key g <> "" ->
            length (containers g) <= frequency cs (key g)
            /\ Forall (fun c => key g ∈ candidates_for c) (containers g))
         (groupContainersByNamePrefix lc cs).
Proof.
  intros Hnd. apply Forall_forall. intros g Hg Hne. split.
  - rewrite (output_group_members lc cs g Hg). unfold frequency.
    apply filter_length_le_elem. intros c Hc Hk. rewrite <- Hk.
    apply select_key_candidate; [done..|]. by rewrite Hk.
  - apply Forall_forall. intros c Hc.
    destruct (output_member_key lc cs g c Hg Hc) as [Hin Hk].
    rewrite <- Hk. apply select_key_candidate; [done..|]. by rewrite Hk.
Qed.

Lemma group_size_bounded_by_count_witness :
  NoDup (map id scenario_A)
  /\ Forall (fun g =>
               key g <> "" ->
               length (containers g) <= frequency scenario_A (key g)
               /\ Forall (fun c => key g ∈ candidates_for c) (containers g))
            (groupContainersByNamePrefix codeUnitCompare scenario_A).
Proof.
  assert (NoDup (map id scenario_A)) as Hnd
    by (apply (bool_decide_unpack _); vm_compute; exact I).
  split; [exact Hnd|].
  exact (group_size_bounded_by_count codeUnitCompare scenario_A Hnd).
Defined.

(** ** Totals *)

Lemma filter_length_concat {A} (f : A -> bool) (ls : list (list A)) :
  length (List.filter f (concat ls))
  = sum_list (map (fun l => length (List.filter f l)) ls).
Proof.
  induction ls as [|l ls IH]; [done|].
  simpl. rewrite List.filter_app, length_app, IH. done.
Qed.

Lemma concat_length_sum {A} (ls : list (list A)) :
  length (concat ls) = sum_list (map length ls).
Proof.
  induction ls as [|l ls IH]; [done|]. simpl. by rewrite length_app, IH.
Qed.

Lemma output_group_nonempty (lc : string -> string -> Z)
    (cs : list ContainerInfo) (g : ContainerGroup) :
  g ∈ groupContainersByNamePrefix lc cs -> containers g <> [].
Proof.
  intros (e & He & ->)%output_elem. destruct e as [k items].
  apply second_pass_entry in He as [_ Hne]. simpl.
  intros Hnil. apply Hne, Permutation_nil. rewrite <- Hnil.
  apply Array_sort_perm.
Qed.

Lemma sum_list_ext_elem {A} (f g : A -> nat) (l : list A) :
  Forall (fun x => f x = g x) l -> sum_list (map f l) = sum_list (map g l).
Proof. induction 1 as [|x l Hx _ IH]; simpl; [done|]. by rewrite Hx, IH. Qed.

(** X8: the running counts of the groups add up to the number of running
    records, the count the dashboard shows; the stopped counts add up to the
    number of the other records; and there are at most as many groups as
    records. *)
Theorem group_totals (lc : string -> string -> Z) (cs : list ContainerInfo) :
  let out := groupContainersByNamePrefix lc cs in
  sum_list (map runningCount out) = length (running cs)
  /\ sum_list (map stoppedCount out) = length cs - length (running cs)
  /\ sum_list (map (fun g => length (containers g)) out) = length cs
  /\ length out <= length cs.
Proof.
  cbn zeta. set (out := groupContainersByNamePrefix lc cs).
  assert (Forall (fun g =>
            runningCount g = length (List.filter is_running (containers g))
            /\ stoppedCount g
               = length (List.filter (fun c => negb (is_running c))
                           (containers g))
            /\ runningCount g + stoppedCount g = length (containers g)) out)
    as Hcounts.
  { apply Forall_forall. intros g (e & _ & ->)%output_elem.
    apply make_group_counts. }
  pose proof (output_members_perm lc cs) as Hperm. fold out in Hperm.
  assert (sum_list (map runningCount out) = length (running cs)) as Hr.
  { unfold running.
    rewrite <- (filter_length_perm is_running _ _ Hperm).
    rewrite filter_length_concat, map_map.
    apply sum_list_ext_elem. eapply Forall_impl; [exact Hcounts|].
    by intros g (-> & _ & _). }
  assert (sum_list (map (fun g => length (containers g)) out) = length cs)
    as Hl.
  { rewrite <- (Permutation_length Hperm), concat_length_sum, map_map.
    done. }
  assert (sum_list (map runningCount out) + sum_list (map stoppedCount out)
          = sum_list (map (fun g => length (containers g)) out)) as Hsum.
  { clear -Hcounts. induction Hcounts as [|g gs (_ & _ & Hg) _ IH]; [done|].
    simpl. lia. }
  split; [done|]. split; [lia|]. split; [done|].
  rewrite <- Hl.
  assert (Forall (fun g => 1 <= length (containers g)) out) as Hne.
  { apply Forall_forall. intros g Hg.
    pose proof (output_group_nonempty lc cs g Hg).
    destruct (containers g); [done|simpl; lia]. }
  clear -Hne. induction Hne as [|g gs Hg _ IH]; simpl; [done|]. lia.
Qed.

(** ** Independence of the order of the snapshot *)

Lemma select_body_ext (m m' : gmap string nat) (b : Best) (x : string) :
  default 0 (m !! x) = default 0 (m' !! x) ->
  select_body m b x = select_body m' b x.
Proof. unfold select_body. by intros ->. Qed.

Lemma select_fold_ext (m m' : gmap string nat) (l : list string) (b : Best) :
  (forall s, default 0 (m !! s) = default 0 (m' !! s)) ->
  foldl (select_body m) b l = foldl (select_body m') b l.
Proof.
  intros Hm. revert b. induction l as [|x l IH]; intros b; [done|].
  simpl. by rewrite IH, (select_body_ext m m' b x (Hm x)).
Qed.

Lemma frequency_perm (cs cs' : list ContainerInfo) (s : string) :
  cs ≡ₚ cs' -> frequency cs s = frequency cs' s.
Proof. intros Hp. unfold frequency. by rewrite Hp. Qed.

Lemma ids_distinct_perm (cs cs' : list ContainerInfo) :
  cs ≡ₚ cs' -> NoDup (map id cs) -> NoDup (map id cs').
Proof. intros Hp. by rewrite (Permutation_map id Hp). Qed.

Lemma select_key_perm (cs cs' : list ContainerInfo) (c : ContainerInfo) :
  cs ≡ₚ cs' -> NoDup (map id cs) -> c ∈ cs ->
  select_key (first_pass cs).1 (first_pass cs).2 c
  = select_key (first_pass cs').1 (first_pass cs').2 c.
Proof.
  intros Hp Hnd Hc.
  assert (c ∈ cs') as Hc' by (by rewrite <- Hp).
  pose proof (ids_distinct_perm cs cs' Hp Hnd) as Hnd'.
  unfold select_key.
  rewrite (candidatesById_own cs c Hnd Hc), (candidatesById_own cs' c Hnd' Hc').
  f_equal. apply select_fold_ext. intros s.
  by rewrite !candidateCounts_frequency, (frequency_perm cs cs' s Hp).
Qed.

(** X9: with pairwise distinct ids, the key selected for a record does not
    depend on the order in which the snapshot lists the records. *)
Theorem key_order_independent (cs cs' : list ContainerInfo)
    (c : ContainerInfo) :
  cs ≡ₚ cs' -> NoDup (map id cs) -> c ∈ cs ->
  select_key (first_pass cs).1 (first_pass cs).2 c
  = select_key (first_pass cs').1 (first_pass cs').2 c.
Proof. apply select_key_perm. Qed.

Lemma key_order_independent_witness :
  scenario_B ≡ₚ [db_replica_2; db; db_replica_1]
  /\ NoDup (map id scenario_B) /\ db ∈ scenario_B
  /\ select_key (first_pass scenario_B).1 (first_pass scenario_B).2 db
     = select_key (first_pass [db_replica_2; db; db_replica_1]).1
         (first_pass [db_replica_2; db; db_replica_1]).2 db.
Proof.
  assert (scenario_B ≡ₚ [db_replica_2; db; db_replica_1]) as Hp.
  { unfold scenario_B.
    etransitivity; [apply perm_skip, perm_swap|]. apply perm_swap. }
  assert (NoDup (map id scenario_B)) as Hnd
    by (apply (bool_decide_unpack _); vm_compute; exact I).
  assert (db ∈ scenario_B) as Hin by left.
  split; [exact Hp|]. split; [exact Hnd|]. split; [exact Hin|].
  exact (key_order_independent _ _ db Hp Hnd Hin).
Defined.

Lemma sorted_perm_unique {A} (le : A -> A -> Prop) (l l' : list A) :
  (forall a b, a ∈ l -> b ∈ l -> le a b -> le b a -> a = b) ->
  StronglySorted le l -> StronglySorted le l' -> l ≡ₚ l' -> l = l'.
Proof.
  intros Hanti Hl. revert l' Hanti.
  induction Hl as [|x xs Hxs IH Hx]; intros l' Hanti Hl' Hp.
  - by apply Permutation_nil in Hp.
  - destruct Hl' as [|y ys Hys Hy].
    { symmetry in Hp. by apply Permutation_nil in Hp. }
    assert (x = y) as <-.
    { assert (x ∈ y :: ys) as Hx' by (rewrite <- Hp; left).
      assert (y ∈ x :: xs) as Hy' by (rewrite Hp; left).
      apply elem_of_cons in Hx' as [?|Hx']; [done|].
      apply elem_of_cons in Hy' as [?|Hy']; [done|].
      rewrite Forall_forall in Hx, Hy.
      apply Hanti; [left|by right|by apply Hx|by apply Hy]. }
    f_equal. apply IH; [|done|by apply Permutation_cons_inv in Hp].
    intros a b Ha Hb. apply Hanti; by right.
Qed.


Lemma Array_sort_perm_eq {A} (cmp : A -> A -> Z) (l l' : list A) :
  (forall a b, (cmp a b <= 0)%Z \/ (cmp b a <= 0)%Z) ->
  (forall a b c, (cmp a b <= 0)%Z -> (cmp b c <= 0)%Z -> (cmp a c <= 0)%Z) ->
  (forall a b, a ∈ l -> b ∈ l -> (cmp a b <= 0)%Z -> (cmp b a <= 0)%Z -> a = b) ->
  l ≡ₚ l' -> Array_sort cmp l = Array_sort cmp l'.
Proof.
  intros Htot Htrans Hanti Hp.
  apply (sorted_perm_unique (fun a b => (cmp a b <= 0)%Z)).
  - intros a b Ha Hb. apply Hanti; by apply (Array_sort_elem cmp).
  - by apply Array_sort_sorted.
  - by apply Array_sort_sorted.
  - by rewrite !Array_sort_perm.
Qed.

Lemma injective_on_NoDup {A B} (f : A -> B) (l : list A) (a b : A) :
  NoDup (map f l) -> a ∈ l -> b ∈ l -> f a = f b -> a = b.
Proof.
  induction l as [|x l IH]; intros Hnd Ha Hb Hf; [by apply elem_of_nil in Ha|].
  simpl in Hnd. apply NoDup_cons in Hnd as [Hx Hnd].
  apply elem_of_cons in Ha as [->|Ha], Hb as [->|Hb]; try done.
  - exfalso. apply Hx. rewrite Hf. apply list_elem_of_In, in_map.
    by apply list_elem_of_In.
  - exfalso. apply Hx. rewrite <- Hf. apply list_elem_of_In, in_map.
    by apply list_elem_of_In.
  - by apply IH.
Qed.

Section OrderIndependence.

Variable lc : string -> string -> Z.

(** An entry of the [groups] map of one snapshot has, in the map of the
    other, an entry for the same key with the same members in some order. *)
Lemma entries_matched (cs cs' : list ContainerInfo) (k : string)
    (items : list ContainerInfo) :
  cs ≡ₚ cs' -> NoDup (map id cs) ->
  (k, items) ∈ second_pass (first_pass cs).1 (first_pass cs).2 cs ->
  exists items',
    (k, items') ∈ second_pass (first_pass cs').1 (first_pass cs').2 cs'
    /\ items ≡ₚ items'
    /\ (forall c, c ∈ items -> c ∈ cs).
Proof.
  intros Hp Hnd He.
  pose proof He as [Hitems Hne]%second_pass_entry.
  destruct items as [|c0 items0] eqn:Eitems; [done|]. rewrite <- Eitems in *.
  assert (c0 ∈ items) as Hc0 by (rewrite Eitems; left).
  rewrite Hitems in Hc0. apply list_elem_of_filter in Hc0 as [Hk0 Hin0].
  assert (c0 ∈ cs') as Hin0' by (by rewrite <- Hp).
  pose proof (second_pass_member (first_pass cs').1 (first_pass cs').2 cs' c0
                Hin0') as He'.
  rewrite <- (select_key_perm cs cs' c0 Hp Hnd Hin0), Hk0 in He'.
  set (items' := filter
                   (fun c' => select_key (first_pass cs').1 (first_pass cs').2 c'
                              = k) cs') in He'.
  exists items'. split; [done|]. split.
  - rewrite Hitems. unfold items'. rewrite <- Hp.
    erewrite filter_ext_elem; [done|]. intros c Hc. simpl.
    by rewrite (select_key_perm cs cs' c Hp Hnd Hc).
  - intros c Hc. rewrite Hitems in Hc.
    by apply list_elem_of_filter in Hc as [_ ?].
Qed.

(** A group of one snapshot has, among the groups of the other, one with the
    same key, the same members in some order, and the same counts. *)
Lemma groups_matched (cs cs' : list ContainerInfo) (g : ContainerGroup) :
  cs ≡ₚ cs' -> NoDup (map id cs) ->
  g ∈ groupContainersByNamePrefix lc cs ->
  exists g', g' ∈ groupContainersByNamePrefix lc cs'
             /\ key g' = key g
             /\ containers g' ≡ₚ containers g
             /\ runningCount g' = runningCount g
             /\ stoppedCount g' = stoppedCount g.
Proof.
  intros Hp Hnd ([k items] & He & ->)%output_elem.
  destruct (entries_matched cs cs' k items Hp Hnd He)
    as (items' & He' & Hpi & _).
  exists (make_group lc (k, items')).
  split; [apply output_elem; by exists (k, items')|].
  unfold make_group. simpl. split; [done|].
  split; [by rewrite !Array_sort_perm|].
  by rewrite (filter_length_perm is_running _ _ Hpi), (Permutation_length Hpi).
Qed.

Lemma made_groups_keys (G : list (string * list ContainerInfo)) :
  map key (map (make_group lc) G) = G.*1.
Proof.
  induction G as [|[k items] G IH]; [done|]. rewrite fmap_cons. simpl.
  by f_equal.
Qed.

Lemma output_keys_perm (cs : list ContainerInfo) :
  map key (groupContainersByNamePrefix lc cs)
  ≡ₚ (second_pass (first_pass cs).1 (first_pass cs).2 cs).*1.
Proof.
  rewrite groupContainersByNamePrefix_eq, <- made_groups_keys.
  apply Permutation_map, Array_sort_perm.
Qed.

Lemma groups_count (cs cs' : list ContainerInfo) :
  cs ≡ₚ cs' -> NoDup (map id cs) ->
  length (groupContainersByNamePrefix lc cs)
  = length (groupContainersByNamePrefix lc cs').
Proof.
  intros Hp Hnd.
  rewrite <- (length_map key (groupContainersByNamePrefix lc cs)).
  rewrite <- (length_map key (groupContainersByNamePrefix lc cs')).
  apply Permutation_length. rewrite !output_keys_perm.
  apply NoDup_Permutation; [apply second_pass_NoDup..|].
  assert (forall cs1 cs2 k,
             cs1 ≡ₚ cs2 -> NoDup (map id cs1) ->
             k ∈ (second_pass (first_pass cs1).1 (first_pass cs1).2 cs1).*1 ->
             k ∈ (second_pass (first_pass cs2).1 (first_pass cs2).2 cs2).*1)
    as Hincl.
  { intros cs1 cs2 k Hp12 Hnd1 ([k' items] & -> & He)%list_elem_of_fmap.
    destruct (entries_matched cs1 cs2 k' items Hp12 Hnd1 He)
      as (items' & He' & _).
    apply list_elem_of_fmap. by exists (k', items'). }
  intros k. split; [by apply Hincl|].
  apply Hincl; [by symmetry|by apply (ids_distinct_perm cs cs')].
Qed.

Hypothesis Hlc : Consistent lc.

Lemma member_compare_antisym (cs : list ContainerInfo) (a b : ContainerInfo) :
  (forall a b, a ∈ cs -> b ∈ cs ->
               lc (name_or_id a) (name_or_id b) = 0%Z ->
               lc (id a) (id b) = 0%Z -> a = b) ->
  a ∈ cs -> b ∈ cs ->
  (member_compare lc a b <= 0)%Z -> (member_compare lc b a <= 0)%Z -> a = b.
Proof.
  intros Hties Ha Hb Hab Hba.
  apply (member_compare_le lc) in Hab, Hba.
  pose proof (lc_flip lc Hlc (name_or_id a) (name_or_id b)) as Hn.
  pose proof (lc_flip lc Hlc (id a) (id b)) as Hi.
  destruct Hab as [[Ha1 Hb1]|[Hr Hab]], Hba as [[Hb2 Ha2]|[Hr' Hba]];
    try congruence.
  apply Hties; [done|done|lia|lia].
Qed.

Lemma group_compare_tie (a b : ContainerGroup) :
  (group_compare lc a b <= 0)%Z -> (group_compare lc b a <= 0)%Z ->
  lc (key a) (key b) = 0%Z.
Proof.
  intros Hab Hba.
  apply (group_compare_le lc) in Hab, Hba.
  pose proof (lc_flip lc Hlc (key a) (key b)). lia.
Qed.

(** Without ties among the records, a group of one snapshot is also a group
    of the other. *)
Lemma groups_included (cs cs' : list ContainerInfo) (g : ContainerGroup) :
  (forall a b, a ∈ cs -> b ∈ cs ->
               lc (name_or_id a) (name_or_id b) = 0%Z ->
               lc (id a) (id b) = 0%Z -> a = b) ->
  cs ≡ₚ cs' -> NoDup (map id cs) ->
  g ∈ map (make_group lc) (second_pass (first_pass cs).1 (first_pass cs).2 cs) ->
  g ∈ map (make_group lc)
        (second_pass (first_pass cs').1 (first_pass cs').2 cs').
Proof.
  intros Hties Hp Hnd Hg.
  apply list_elem_of_In, in_map_iff in Hg as ([k items] & <- & He).
  apply list_elem_of_In in He.
  destruct (entries_matched cs cs' k items Hp Hnd He)
    as (items' & He' & Hpi & Hsub).
  apply list_elem_of_In, in_map_iff. exists (k, items').
  split; [|by apply list_elem_of_In].
  unfold make_group.
  rewrite (filter_length_perm is_running _ _ Hpi), (Permutation_length Hpi).
  f_equal. symmetry. apply Array_sort_perm_eq.
  - by apply member_compare_total.
  - by apply member_compare_trans.
  - intros a b Ha Hb.
    apply (member_compare_antisym cs); [done|by apply Hsub|by apply Hsub].
  - done.
Qed.

Lemma output_order_independent_aux (cs cs' : list ContainerInfo) :
  (forall a b, a ∈ cs -> b ∈ cs ->
               lc (name_or_id a) (name_or_id b) = 0%Z ->
               lc (id a) (id b) = 0%Z -> a = b) ->
  (forall g g', g ∈ groupContainersByNamePrefix lc cs ->
                g' ∈ groupContainersByNamePrefix lc cs ->
                lc (key g) (key g') = 0%Z -> key g = key g') ->
  cs ≡ₚ cs' -> NoDup (map id cs) ->
  groupContainersByNamePrefix lc cs = groupContainersByNamePrefix lc cs'.
Proof.
  intros Hties Hkeys Hp Hnd.
  rewrite groupContainersByNamePrefix_eq in Hkeys.
  rewrite !groupContainersByNamePrefix_eq.
  set (GS := map (make_group lc)
               (second_pass (first_pass cs).1 (first_pass cs).2 cs)) in *.
  set (GS' := map (make_group lc)
                (second_pass (first_pass cs').1 (first_pass cs').2 cs')).
  assert (NoDup (map key GS)) as HndG.
  { unfold GS. rewrite made_groups_keys. apply second_pass_NoDup. }
  assert (NoDup (map key GS')) as HndG'.
  { unfold GS'. rewrite made_groups_keys. apply second_pass_NoDup. }
  apply Array_sort_perm_eq.
  - by apply group_compare_total.
  - by apply group_compare_trans.
  - intros a b Ha Hb Hab Hba.
    apply (injective_on_NoDup key GS a b HndG Ha Hb).
    apply Hkeys; [by apply Array_sort_elem|by apply Array_sort_elem|].
    by apply group_compare_tie.
  - apply NoDup_Permutation.
    + by apply NoDup_fmap_1 in HndG.
    + by apply NoDup_fmap_1 in HndG'.
    + intros g. split.
      * by apply groups_included.
      * apply groups_included; [|by symmetry|].
        -- intros a b Ha Hb. apply Hties; by rewrite Hp.
        -- by apply (ids_distinct_perm cs cs').
Qed.

End OrderIndependence.

(** X10: two snapshots that list the same records, with pairwise distinct
    ids, in different orders give the same number of groups, and every group
    of the one has a group of the other with the same key, the same members
    in some order and the same counts, whatever [localeCompare] is.  When
    [localeCompare] is a consistent comparator that, on this snapshot, ties
    no two different records on both name-or-id and id and no two different
    group keys, the two outputs are equal. *)
Theorem output_order_independent (lc : string -> string -> Z)
    (cs cs' : list ContainerInfo) :
  NoDup (map id cs) -> cs ≡ₚ cs' ->
  length (groupContainersByNamePrefix lc cs)
  = length (groupContainersByNamePrefix lc cs')
  /\ Forall (fun g =>
               exists g', g' ∈ groupContainersByNamePrefix lc cs'
                          /\ key g' = key g
                          /\ containers g' ≡ₚ containers g
                          /\ runningCount g' = runningCount g
                          /\ stoppedCount g' = stoppedCount g)
            (groupContainersByNamePrefix lc cs)
  /\ (Consistent lc ->
      (forall a b, a ∈ cs -> b ∈ cs ->
                   lc (name_or_id a) (name_or_id b) = 0%Z ->
                   lc (id a) (id b) = 0%Z -> a = b) ->
      (forall g g', g ∈ groupContainersByNamePrefix lc cs ->
                    g' ∈ groupContainersByNamePrefix lc cs ->
                    lc (key g) (key g') = 0%Z -> key g = key g') ->
      groupContainersByNamePrefix lc cs = groupContainersByNamePrefix lc cs').
Proof.
  intros Hnd Hp. split; [by apply groups_count|]. split.
  - apply Forall_forall. intros g Hg. by apply (groups_matched lc cs cs').
  - intros Hlc Hties Hkeys. by apply output_order_independent_aux.
Qed.

Lemma collationCompare_zero (a b : string) :
  collationCompare a b = 0%Z -> a = b.
Proof.
  unfold collationCompare, codeUnitCompare.
  destruct (String.compare (toLowerCase a) (toLowerCase b)); [|done|done].
  destruct (String.compare b a) eqn:E; [|done|done].
  intros _. symmetry. by apply String.compare_eq_iff.
Qed.

Lemma output_order_independent_witness :
  NoDup (map id scenario_A)
  /\ scenario_A ≡ₚ [api_1; web_2; web_1]
  /\ Consistent collationCompare
  /\ groupContainersByNamePrefix collationCompare scenario_A
     = groupContainersByNamePrefix collationCompare [api_1; web_2; web_1].
Proof.
  assert (scenario_A ≡ₚ [api_1; web_2; web_1]) as Hp.
  { unfold scenario_A.
    etransitivity; [apply perm_skip, perm_swap|].
    etransitivity; [apply perm_swap|]. apply perm_skip, perm_swap. }
  assert (NoDup (map id scenario_A)) as Hnd
    by (apply (bool_decide_unpack _); vm_compute; exact I).
  split; [exact Hnd|]. split; [exact Hp|].
  split; [exact collationCompare_consistent|].
  apply (proj2 (proj2 (output_order_independent collationCompare _ _ Hnd Hp))).
  - exact collationCompare_consistent.
  - intros a b Ha Hb _ Hi.
    apply (injective_on_NoDup id scenario_A a b Hnd Ha Hb).
    by apply collationCompare_zero.
  - intros g g' _ _. apply collationCompare_zero.
Defined.

(** * The rest of the component *)

(** ** Expanded groups *)

Lemma truthy_toggle (inherited : string -> bool) (key key' : string)
    (prev : gmap string bool) :
  truthy_at inherited (toggleContainerGroup inherited key prev) key'
  = if decide (key = key') then negb (truthy_at inherited prev key)
    else truthy_at inherited prev key'.
Proof.
  unfold toggleContainerGroup, truthy_at at 1.
  destruct (decide (key = key')) as [<-|Hne].
  - by rewrite lookup_insert_eq.
  - by rewrite lookup_insert_ne.
Qed.

(** X11: toggling a group flips its expanded flag and leaves the flag of
    every other group as it was, also for a key that the state object lacks
    but inherits. *)
Theorem toggle_flips_one (inherited : string -> bool) (key key' : string)
    (prev : gmap string bool) :
  truthy_at inherited (toggleContainerGroup inherited key prev) key'
  = if decide (key = key') then negb (truthy_at inherited prev key)
    else truthy_at inherited prev key'.
Proof. apply truthy_toggle. Qed.

(** X12: toggling a group twice gives every group its former expanded flag,
    and toggles of two different groups can be done in either order. *)
Theorem toggle_twice_and_commute (inherited : string -> bool)
    (key key' : string) (prev : gmap string bool) :
  (forall k,
      truthy_at inherited
        (toggleContainerGroup inherited key
           (toggleContainerGroup inherited key prev)) k
      = truthy_at inherited prev k)
  /\ (key <> key' ->
      toggleContainerGroup inherited key
        (toggleContainerGroup inherited key' prev)
      = toggleContainerGroup inherited key'
          (toggleContainerGroup inherited key prev)).
Proof.
  split.
  - intros k. rewrite !truthy_toggle.
    destruct (decide (key = k)) as [<-|Hne].
    + rewrite decide_True by done. apply negb_involutive.
    + done.
  - intros Hne. unfold toggleContainerGroup.
    rewrite insert_insert_ne by done. f_equal.
    + f_equal. unfold truthy_at. by rewrite lookup_insert_ne.
    + f_equal. f_equal. unfold truthy_at. by rewrite lookup_insert_ne.
Qed.

Lemma toggle_twice_and_commute_witness :
  "web" <> "db"
  /\ toggleContainerGroup (fun _ => false) "web"
       (toggleContainerGroup (fun _ => false) "db" ∅)
     = toggleContainerGroup (fun _ => false) "db"
         (toggleContainerGroup (fun _ => false) "web" ∅).
Proof.
  assert ("web" <> "db") as Hne by discriminate.
  split; [exact Hne|].
  exact (proj2 (toggle_twice_and_commute (fun _ => false) "web" "db" ∅) Hne).
Defined.

(** ** The containers page *)

Section ContainersPage.

Variable inherited : string -> bool.
Variable lc : string -> string -> Z.
Variable acting : string.
Variable state : gmap string bool.

Lemma render_group_Some (g : ContainerGroup) :
  containers g <> [] -> is_Some (render_group inherited acting state g).
Proof.
  intros Hne. unfold render_group.
  destruct (length (containers g) <=? 1)%nat; [|by eexists].
  destruct (containers g); [done|by eexists].
Qed.

Lemma render_groups_Some (gs : list ContainerGroup) :
  Forall (fun g => containers g <> []) gs ->
  is_Some (mapM (render_group inherited acting state) gs).
Proof.
  intros Hgs. apply mapM_is_Some. eapply Forall_impl; [exact Hgs|].
  intros g Hg. by apply render_group_Some.
Qed.

Lemma render_groups_keys (gs : list ContainerGroup) (rows : list Element) :
  mapM (render_group inherited acting state) gs = Some rows ->
  shown_keys rows
  ++ concat (map (fun g => map id (containers g))
               (List.filter (collapsed inherited state) gs))
  ≡ₚ concat (map (fun g => map id (containers g)) gs).
Proof.
  rewrite mapM_Some. induction 1 as [|g e gs rows Hg _ IH]; [done|].
  unfold shown_keys in *. simpl. unfold collapsed at 1.
  unfold render_group in Hg.
  destruct (length (containers g) <=? 1)%nat eqn:Hlen; simpl.
  - destruct (containers g) as [|c [|c' l]] eqn:Hcs; [done| |].
    + injection Hg as <-. simpl. by rewrite IH.
    + apply Nat.leb_le in Hlen. simpl in Hlen. lia.
  - injection Hg as <-.
    destruct (truthy_at inherited state (key g)); simpl.
    + rewrite map_map. simpl. rewrite <- app_assoc. by rewrite IH.
    + rewrite <- IH. rewrite !app_assoc.
      apply Permutation_app_tail, Permutation_app_comm.
Qed.

End ContainersPage.

(** X13: the containers page never reads a member of an empty group: for all
    inputs [renderContainers] returns a page. *)
Theorem renderContainers_returns (inherited : string -> bool)
    (lc : string -> string -> Z) (acting : string)
    (state : gmap string bool) (loading : bool) (error : string)
    (cs : list ContainerInfo) :
  is_Some (renderContainers inherited lc acting state loading error cs).
Proof.
  unfold renderContainers.
  destruct loading; [by eexists|].
  destruct (negb (is_empty error)); [by eexists|].
  destruct (length cs =? 0)%nat; [by eexists|].
  apply fmap_is_Some, render_groups_Some, Forall_forall.
  intros g Hg. by apply (output_group_nonempty lc cs).
Qed.

(** X14: when the page shows rows, every container of the snapshot is
    either on exactly one card or a member of exactly one collapsed group:
    the keys of the cards shown, together with the ids of the members of the
    collapsed groups, are the ids of the snapshot. *)
Theorem renderContainers_accounts (inherited : string -> bool)
    (lc : string -> string -> Z) (acting : string)
    (state : gmap string bool) (loading : bool) (error : string)
    (cs : list ContainerInfo) (rows : list Element) :
  renderContainers inherited lc acting state loading error cs
  = Some (Rows rows) ->
  shown_keys rows
  ++ concat (map (fun g => map id (containers g))
               (List.filter (collapsed inherited state)
                  (groupContainersByNamePrefix lc cs)))
  ≡ₚ map id cs.
Proof.
  unfold renderContainers.
  destruct loading; [done|].
  destruct (negb (is_empty error)); [done|].
  destruct (length cs =? 0)%nat; [done|].
  destruct (mapM (render_group inherited acting state)
              (groupContainersByNamePrefix lc cs)) as [rows'|] eqn:Hm; [|done].
  intros [= <-]. rewrite (render_groups_keys _ _ _ _ _ Hm).
  rewrite <- (Permutation_map id (output_members_perm lc cs)).
  generalize (groupContainersByNamePrefix lc cs) as gs.
  induction gs as [|g gs IH]; [done|]. simpl. by rewrite map_app, IH.
Qed.

Lemma renderContainers_accounts_witness :
  let rows := [ Group "db" false true 2 1 None ] in
  renderContainers (fun _ => false) codeUnitCompare "" ∅ false "" scenario_B
  = Some (Rows rows)
  /\ shown_keys rows
     ++ concat (map (fun g => map id (containers g))
                  (List.filter (collapsed (fun _ => false) ∅)
                     (groupContainersByNamePrefix codeUnitCompare scenario_B)))
     ≡ₚ map id scenario_B.
Proof.
  cbn zeta.
  assert (renderContainers (fun _ => false) codeUnitCompare "" ∅ false ""
            scenario_B = Some (Rows [ Group "db" false true 2 1 None ])) as Hr
    by (vm_compute; reflexivity).
  split; [exact Hr|].
  exact (renderContainers_accounts _ _ _ _ _ _ _ _ Hr).
Defined.

(** ** The default tag *)

Lemma count_char_app (x : ascii) (a b : string) :
  count_char x (a ++ b) = count_char x a + count_char x b.
Proof. induction a as [|c a IH]; simpl; [done|]. rewrite IH. lia. Qed.

Lemma before_colon_no_colon (s : string) : count_char ":" (before_colon s) = 0.
Proof.
  induction s as [|c s IH]; simpl; [done|].
  destruct (Ascii.eqb c ":") eqn:Hc; simpl; [done|]. by rewrite Hc.
Qed.

Lemma before_colon_prefix (s : string) :
  String.prefix (before_colon s) s = true.
Proof.
  induction s as [|c s IH]; simpl; [done|].
  destruct (Ascii.eqb c ":"); simpl; [done|].
  destruct (ascii_dec c c); [exact IH|done].
Qed.

Lemma before_colon_id (s : string) :
  count_char ":" s = 0 -> before_colon s = s.
Proof.
  induction s as [|c s IH]; simpl; [done|].
  destruct (Ascii.eqb c ":"); simpl; [done|]. intros H. by rewrite IH.
Qed.

(** X15: the default tag offered for packaging a container has exactly one
    colon, the one before "latest"; its repository part is the image name up
    to the first colon of that name, the whole name when it has none. *)
Theorem defaultTag_one_colon (c : ContainerInfo) :
  let img := if is_empty (image c) then "image" else image c in
  count_char ":" (defaultTag c) = 1
  /\ (exists repo, defaultTag c = (repo ++ "-snapshot:latest")%string
                   /\ String.prefix repo img = true)
  /\ (count_char ":" img = 0 ->
      defaultTag c = (img ++ "-snapshot:latest")%string).
Proof.
  cbn zeta. unfold defaultTag.
  split; [by rewrite count_char_app, before_colon_no_colon|].
  split; [eexists; split; [done|apply before_colon_prefix]|].
  intros H. by rewrite before_colon_id.
Qed.

Lemma defaultTag_one_colon_witness :
  let c := {| id := "c1"; name := "web"; image := "nginx"; state := "running";
              status := ""; ports := "" |} in
  count_char ":" "nginx" = 0 /\ defaultTag c = "nginx-snapshot:latest".
Proof.
  cbn zeta. split; [reflexivity|].
  exact (proj2 (proj2 (defaultTag_one_colon
           {| id := "c1"; name := "web"; image := "nginx"; state := "running";
              status := ""; ports := "" |})) eq_refl).
Defined.

(** ** Requests *)

Lemma trim_guest_default : trim "/mnt/host" = "/mnt/host".
Proof. reflexivity. Qed.

(** X16: [doMountAdd] sends no request when the VM id is empty or the tag or
    the host path is blank; otherwise the tag, the host path and the guest
    path it sends are non-empty and carry no outer white space, the guest
    path being "/mnt/host" when the field is blank. *)
Theorem doMountAdd_validates (vm tag host guest : string) (ro : bool) :
  match doMountAdd_args vm tag host guest ro with
  | None => vm = "" \/ trim tag = "" \/ trim host = ""
  | Some r =>
      vm <> "" /\ arg_vm r = vm /\ arg_readonly r = ro
      /\ arg_tag r = trim tag /\ arg_tag r <> ""
      /\ trim (arg_tag r) = arg_tag r
      /\ arg_host_path r = trim host /\ arg_host_path r <> ""
      /\ trim (arg_host_path r) = arg_host_path r
      /\ arg_guest_path r <> ""
      /\ trim (arg_guest_path r) = arg_guest_path r
      /\ (trim guest = "" -> arg_guest_path r = "/mnt/host")
      /\ (trim guest <> "" -> arg_guest_path r = trim guest)
  end.
Proof.
  unfold doMountAdd_args.
  destruct (is_empty vm) eqn:Hv; simpl.
  { left. by apply is_empty_true. }
  destruct (is_empty (trim tag)) eqn:Ht; simpl.
  { right. left. by apply is_empty_true. }
  destruct (is_empty (trim host)) eqn:Hh; simpl.
  { right. right. by apply is_empty_true. }
  apply is_empty_false in Hv, Ht, Hh.
  rewrite !trim_idemp.
  destruct (is_empty (trim guest)) eqn:Hg.
  - apply is_empty_true in Hg. by repeat split.
  - apply is_empty_false in Hg. rewrite trim_idemp. by repeat split.
Qed.

Lemma doMountAdd_validates_witness :
  match doMountAdd_args "vm1" " data " "/srv" "  " false with
  | None => False
  | Some r =>
      arg_tag r = "data" /\ arg_host_path r = "/srv"
      /\ arg_guest_path r = "/mnt/host"
  end.
Proof.
  pose proof (doMountAdd_validates "vm1" " data " "/srv" "  " false) as H.
  destruct (doMountAdd_args "vm1" " data " "/srv" "  " false) as [r|].
  - destruct H as (_ & _ & _ & Ht & _ & _ & Hh & _ & _ & _ & _ & Hg & _).
    split; [exact Ht|]. split; [exact Hh|]. apply Hg. reflexivity.
  - destruct H as [H|[H|H]]; discriminate H.
Defined.

(** X17: [doRun] sends no request without an image; otherwise the container
    name it sends is absent when the name field is blank, and else the field
    without its outer white space, which is not empty. *)
Theorem doRun_name (number : Type) (image name : string)
    (cpus mem : option number) (pull : bool) :
  match doRun_args number image name cpus mem pull with
  | None => image = ""
  | Some r =>
      image <> "" /\ run_image number r = image
      /\ run_cpus number r = cpus /\ run_memory_mb number r = mem
      /\ match run_name number r with
         | None => trim name = ""
         | Some n => n = trim name /\ n <> "" /\ trim n = n
         end
  end.
Proof.
  unfold doRun_args. destruct (is_empty image) eqn:Hi.
  { by apply is_empty_true. }
  apply is_empty_false in Hi. simpl.
  destruct (is_empty (trim name)) eqn:Hn; simpl.
  - apply is_empty_true in Hn. by repeat split.
  - apply is_empty_false in Hn. rewrite trim_idemp. by repeat split.
Qed.

(** ** The check of the translation tables *)

Lemma is_nil_true {A} (l : list A) : is_nil l = true <-> l = [].
Proof. destruct l; split; done. Qed.

Lemma missing_from_elem (a b : list string) (k : string) :
  k ∈ missing_from a b <-> k ∈ a /\ k ∉ b.
Proof. unfold missing_from. rewrite list_elem_of_filter. tauto. Qed.

Lemma nil_iff_included (l a b : list string) :
  (forall k, k ∈ l <-> k ∈ a /\ k ∉ b) ->
  l = [] <-> (forall k, k ∈ a -> k ∈ b).
Proof.
  intros Hl. split.
  - intros -> k Hk. destruct (decide (k ∈ b)) as [|Hn]; [done|].
    assert (k ∈ @nil string) as Hin by (by apply Hl).
    by apply not_elem_of_nil in Hin.
  - intros H. apply elem_of_nil_inv. intros k [Ha Hb]%Hl. apply Hb. by apply H.
Qed.

Lemma missing_keys_elem (a b : list string) (k : string) :
  k ∈ missing_keys a b <-> k ∈ a /\ k ∉ b.
Proof.
  unfold missing_keys.
  by rewrite Array_sort_elem, missing_from_elem, !Set_from_dedup,
    !dedup_keep_first_elem.
Qed.

Lemma missing_keys_NoDup (a b : list string) : NoDup (missing_keys a b).
Proof.
  unfold missing_keys. rewrite Array_sort_perm. unfold missing_from.
  apply NoDup_filter. rewrite Set_from_dedup. apply dedup_keep_first_NoDup.
Qed.

Lemma sorted_strict (l : list string) :
  StronglySorted (fun a b => (codeUnitCompare a b <= 0)%Z) l -> NoDup l ->
  StronglySorted (fun a b => String.compare a b = Lt) l.
Proof.
  induction 1 as [|x l Hl IH Hx]; intros Hnd; [constructor|].
  apply NoDup_cons in Hnd as [Hxl Hnd].
  constructor; [by apply IH|].
  apply List.Forall_forall. intros y Hy.
  rewrite List.Forall_forall in Hx. specialize (Hx y Hy).
  apply codeUnitCompare_le in Hx.
  destruct (String.compare x y) eqn:E; [|done|done].
  apply String.compare_eq_iff in E. subst y.
  destruct Hxl. by apply list_elem_of_In.
Qed.

(** X18: the keys reported as missing from a block are exactly the keys of
    the other block that it lacks, each reported once, in strictly ascending
    order of code units. *)
Theorem missing_keys_exact (a b : list string) :
  (forall k, k ∈ missing_keys a b <-> k ∈ a /\ k ∉ b)
  /\ NoDup (missing_keys a b)
  /\ StronglySorted (fun x y => String.compare x y = Lt) (missing_keys a b).
Proof.
  split; [apply missing_keys_elem|].
  split; [apply missing_keys_NoDup|].
  apply sorted_strict; [|apply missing_keys_NoDup].
  unfold missing_keys. apply Array_sort_sorted.
  - intros x y. rewrite !codeUnitCompare_le.
    rewrite (String.compare_antisym x y).
    destruct (String.compare y x); simpl; [left|right|left]; done.
  - apply codeUnitCompare_consistent.
Qed.

Lemma expected_langs : Set_from ["en"; "zh"] = ["en"; "zh"].
Proof. rewrite Set_from_dedup. reflexivity. Qed.

Lemma langs_checked (langs : list string) :
  negb (is_nil (missing_from ["en"; "zh"] langs))
  || negb (is_nil (missing_from langs ["en"; "zh"])) = false
  <-> (forall l, l ∈ langs <-> l = "en" \/ l = "zh").
Proof.
  rewrite orb_false_iff, !negb_false_iff, !is_nil_true.
  rewrite (nil_iff_included _ _ _ (missing_from_elem _ _)).
  rewrite (nil_iff_included _ _ _ (missing_from_elem _ _)).
  split.
  - intros [H1 H2] l. split.
    + intros Hl. specialize (H2 l Hl).
      apply elem_of_cons in H2 as [->|H2]; [by left|].
      apply list_elem_of_singleton in H2. by right.
    + intros [->| ->]; apply H1; [left|right; left].
  - intros H. split; intros l Hl.
    + apply H. apply elem_of_cons in Hl as [->|Hl]; [by left|].
      apply list_elem_of_singleton in Hl. by right.
    + apply H in Hl as [->| ->]; [left|right; left].
Qed.

Lemma keys_checked (a b : list string) :
  negb (is_nil (missing_keys a b)) || negb (is_nil (missing_keys b a)) = false
  <-> (forall k, k ∈ a <-> k ∈ b).
Proof.
  rewrite orb_false_iff, !negb_false_iff, !is_nil_true.
  rewrite (nil_iff_included _ _ _ (missing_keys_elem a b)).
  rewrite (nil_iff_included _ _ _ (missing_keys_elem b a)).
  split; [intros [H1 H2] k; split; auto|].
  intros H. split; intros k; apply H.
Qed.

(** X19: the script ends with its message of success exactly when the
    language blocks found at depth 1 are [en] and [zh] and no others, and
    the two blocks have the same set of keys; in every other case it exits
    with status 1. *)
Theorem i18n_check_ok_iff (src : string) :
  (i18n_check src = Done "i18n OK: en/zh keys are in sync"
   <-> (forall l, l ∈ topLevelLangs (split_lines src)
                  <-> l = "en" \/ l = "zh")
       /\ (forall k, k ∈ extractLangKeys "en" (split_lines src)
                     <-> k ∈ extractLangKeys "zh" (split_lines src)))
  /\ (i18n_check src <> Done "i18n OK: en/zh keys are in sync"
      -> exists errors, i18n_check src = Exit1 errors).
Proof.
  unfold i18n_check. rewrite expected_langs.
  rewrite <- langs_checked, <- keys_checked.
  destruct (negb (is_nil (missing_from ["en"; "zh"] _)) || _) eqn:E1.
  - split; [|intros _; by eexists]. split; [done|]. by intros [? _].
  - destruct (negb (is_nil (missing_keys _ _)) || _) eqn:E2.
    + split; [|intros _; by eexists]. split; [done|]. by intros [_ ?].
    + split; [done|]. by intros H.
Qed.

Lemma i18n_check_ok_iff_witness :
  (forall l, l ∈ topLevelLangs (split_lines table_ok)
             <-> l = "en" \/ l = "zh")
  /\ (forall k, k ∈ extractLangKeys "en" (split_lines table_ok)
                <-> k ∈ extractLangKeys "zh" (split_lines table_ok)).
Proof.
  apply (proj1 (proj1 (i18n_check_ok_iff table_ok))).
  vm_compute. reflexivity.
Defined.

(** X20: the script never exits with status 1 without a line on the error
    stream, and writes at most two. *)
Theorem i18n_check_exit_has_error (src : string) (errors : list string) :
  i18n_check src = Exit1 errors -> 1 <= length errors <= 2.
Proof.
  unfold i18n_check.
  destruct (negb (is_nil (missing_from (Set_from _) _)) || _) eqn:E1.
  - intros [= <-]. rewrite length_app.
    destruct (negb (is_nil (missing_from (Set_from _) _))),
      (negb (is_nil (missing_from (topLevelLangs _) _)));
      simpl in *; try done; lia.
  - destruct (negb (is_nil (missing_keys _ _)) || _) eqn:E2; [|done].
    intros [= <-]. rewrite length_app.
    destruct (negb (is_nil (missing_keys (extractLangKeys "en" _) _))),
      (negb (is_nil (missing_keys (extractLangKeys "zh" _) _)));
      simpl in *; try done; lia.
Qed.

Lemma i18n_check_exit_has_error_witness :
  1 <= length ["ERROR: i18n: missing zh keys: copy, stop"] <= 2.
Proof.
  apply (i18n_check_exit_has_error table_missing).
  vm_compute. reflexivity.
Defined.

Lemma ident_span_all (s : string) : all_ident (ident_span s).1 = true.
Proof.
  induction s as [|c r IH]; simpl; [done|].
  destruct (is_ident c) eqn:E; [|done].
  destruct (ident_span r) as [a b]. simpl in *. by rewrite E, IH.
Qed.

Lemma match_block_open_identifier (line m : string) :
  match_block_open line = Some m -> identifier m.
Proof.
  unfold match_block_open.
  pose proof (ident_span_all (trimStart line)) as Hall.
  destruct (ident_span (trimStart line)) as [word rest]. simpl in Hall.
  destruct (is_empty word) eqn:E; [done|].
  destruct (after_colon_brace rest); [|done].
  intros [= <-]. split; [by apply is_empty_false|done].
Qed.

Lemma match_key_identifier (line m : string) :
  match_key line = Some m -> identifier m.
Proof.
  unfold match_key.
  pose proof (ident_span_all (trimStart line)) as Hall.
  destruct (ident_span (trimStart line)) as [word rest]. simpl in Hall.
  destruct (is_empty word) eqn:E; [done|].
  destruct (after_colon rest); [|done].
  intros [= <-]. split; [by apply is_empty_false|done].
Qed.

Lemma topLevelLangs_loop_inv (P : list string -> Prop) (lines : list string) :
  (forall line m acc, line ∈ lines -> match_block_open line = Some m ->
                      P acc -> P (Set_add m acc)) ->
  forall inMessages depth langs,
    P langs -> P (topLevelLangs_loop lines inMessages depth langs).
Proof.
  induction lines as [|line rest IH]; intros Hstep inM depth langs HP;
    simpl; [done|].
  assert (forall line m acc, line ∈ rest -> match_block_open line = Some m ->
                             P acc -> P (Set_add m acc)) as Hrest.
  { intros l m acc Hl. apply Hstep. by right. }
  destruct inM; simpl.
  - assert (P (if (depth =? 1)%Z
               then match match_block_open line with
                    | Some m => Set_add m langs
                    | None => langs
                    end
               else langs)) as HP'.
    { destruct (depth =? 1)%Z; [|done].
      destruct (match_block_open line) as [m|] eqn:E; [|done].
      apply (Hstep line); [left|done|done]. }
    destruct (_ <=? 0)%Z; [done|]. by apply IH.
  - destruct (includes _ line); by apply IH.
Qed.

Lemma extractLangKeys_loop_inv (P : list string -> Prop) (lang : string)
    (lines : list string) :
  (forall line m acc, line ∈ lines -> is_comment_line line = false ->
                      match_key line = Some m -> P acc -> P (acc ++ [m])) ->
  forall inBlock depth keys,
    P keys -> P (extractLangKeys_loop lang lines inBlock depth keys).
Proof.
  induction lines as [|line rest IH]; intros Hstep inB depth keys HP;
    simpl; [done|].
  assert (forall line m acc, line ∈ rest -> is_comment_line line = false ->
                             match_key line = Some m ->
                             P acc -> P (acc ++ [m])) as Hrest.
  { intros l m acc Hl. apply Hstep. by right. }
  destruct inB; simpl.
  - assert (P (if negb (is_comment_line line)
               then match match_key line with
                    | Some m => keys ++ [m]
                    | None => keys
                    end
               else keys)) as HP'.
    { destruct (is_comment_line line) eqn:Ec; [done|]. simpl.
      destruct (match_key line) as [m|] eqn:E; [|done].
      apply (Hstep line); [left|done|done|done]. }
    destruct (_ <=? 0)%Z; [done|]. by apply IH.
  - destruct (test_block_start lang line); by apply IH.
Qed.

(** X21: every language name and every key the script collects is a
    non-empty word of letters, digits and underscores that starts a line of
    the file (after white space) and is followed by a colon; a key never
    comes from a line that starts as a comment; no language name is
    collected twice. *)
Theorem extracted_names (lines : list string) (lang : string) :
  Forall (fun l => identifier l
                   /\ exists line, line ∈ lines
                                   /\ match_block_open line = Some l)
         (topLevelLangs lines)
  /\ NoDup (topLevelLangs lines)
  /\ Forall (fun k => identifier k
                      /\ exists line, line ∈ lines
                                      /\ is_comment_line line = false
                                      /\ match_key line = Some k)
            (extractLangKeys lang lines).
Proof.
  split; [|split].
  - unfold topLevelLangs.
    apply (topLevelLangs_loop_inv (Forall _)); [|constructor].
    intros line m acc Hl Hm Hacc. unfold Set_add.
    case_bool_decide; [done|].
    apply Forall_app. split; [done|]. constructor; [|constructor].
    split; [by apply (match_block_open_identifier line)|by exists line].
  - unfold topLevelLangs.
    apply (topLevelLangs_loop_inv NoDup); [|constructor].
    intros line m acc _ _ Hacc. unfold Set_add.
    case_bool_decide as Hm; [done|].
    apply NoDup_app. split; [done|]. split; [|apply NoDup_singleton].
    intros x Hx ->%list_elem_of_singleton. done.
  - unfold extractLangKeys.
    apply (extractLangKeys_loop_inv (Forall _)); [|constructor].
    intros line m acc Hl Hc Hm Hacc.
    apply Forall_app. split; [done|]. constructor; [|constructor].
    split; [by apply (match_key_identifier line)|by exists line].
Qed.

Lemma topLevelLangs_loop_no_marker (lines : list string) (depth : Z)
    (langs : list string) :
  Forall (fun line => includes "export const messages" line = false) lines ->
  topLevelLangs_loop lines false depth langs = langs.
Proof.
  induction 1 as [|line rest Hline _ IH]; simpl; [done|].
  by rewrite Hline.
Qed.

(** X22: when no line of the file contains the text "export const messages",
    the script reports both language blocks as missing, says nothing about
    keys, and exits with status 1. *)
Theorem i18n_check_no_marker (src : string) :
  Forall (fun line => includes "export const messages" line = false)
         (split_lines src) ->
  i18n_check src = Exit1 ["ERROR: i18n: missing language blocks: en, zh"].
Proof.
  intros H. unfold i18n_check, topLevelLangs.
  rewrite topLevelLangs_loop_no_marker by done.
  reflexivity.
Qed.

Lemma i18n_check_no_marker_witness :
  i18n_check "const messages = { en: {}, zh: {} }"
  = Exit1 ["ERROR: i18n: missing language blocks: en, zh"].
Proof.
  apply i18n_check_no_marker. vm_compute. repeat constructor.
Defined.

Lemma extractLangKeys_loop_closes (lang : string) (body post : list string) :
  forall depth keys,
    closes_in depth body = true ->
    extractLangKeys_loop lang (body ++ post) true depth keys
    = extractLangKeys_loop lang body true depth keys.
Proof.
  induction body as [|line rest IH]; intros depth keys; simpl; [done|].
  destruct (_ <=? 0)%Z; [done|]. simpl. apply IH.
Qed.

Lemma extractLangKeys_loop_skip (lang : string) (pre rest : list string) :
  Forall (fun line => test_block_start lang line = false) pre ->
  forall depth keys,
    extractLangKeys_loop lang (pre ++ rest) false depth keys
    = extractLangKeys_loop lang rest false depth keys.
Proof.
  induction 1 as [|line pre Hline _ IH]; intros depth keys; simpl; [done|].
  rewrite Hline. apply IH.
Qed.

(** X23: the keys of a language are read from its block alone: when no line
    before the first line that opens the block matches the opening pattern,
    and the brace depth falls back to 0 within the lines [body] that follow
    it, the lines before the block and the lines after [body] do not change
    the keys. *)
Theorem extractLangKeys_block (lang : string) (pre : list string)
    (start : string) (body post : list string) :
  Forall (fun line => test_block_start lang line = false) pre ->
  test_block_start lang start = true ->
  closes_in (brace_delta start) body = true ->
  extractLangKeys lang (pre ++ start :: body ++ post)
  = extractLangKeys lang (start :: body).
Proof.
  intros Hpre Hstart Hclose. unfold extractLangKeys.
  rewrite extractLangKeys_loop_skip by done.
  simpl. rewrite Hstart.
  by apply extractLangKeys_loop_closes.
Qed.

Lemma extractLangKeys_block_witness :
  extractLangKeys "en"
    (["export const messages = {"]
     ++ "  en: {" :: ["    start: 'Start',"; "  },"]
     ++ ["  zh: {"; "    stop: 'ting',"; "  },"; "}"])
  = extractLangKeys "en" ["  en: {"; "    start: 'Start',"; "  },"].
Proof.
  apply extractLangKeys_block.
  - repeat constructor.
  - reflexivity.
  - reflexivity.
Defined.
